(** * The analytics event bus of Hydrogen's [AnalyticsProvider]

    A shallow embedding of the module-level bus of the analytics provider
    module: the three module-level stores [subscribers], [registers] and
    [waitForReadyQueue], and the functions [areRegistersReady],
    [subscribe], [publish], [publishEvent] and [register] (with the
    [ready] closure it returns).

    Modelling decisions.
    - A JavaScript [Map] keeps its entries in insertion order and [set] on
      an existing key keeps the entry's position: it is an association list
      ([JsMap]).
    - [registers] is a plain object ([{}]) used as a dictionary.  Its values
      are only ever read through [Object.values(..).every(Boolean)], so the
      order of its keys is irrelevant: its own properties are a
      [gmap string bool].  It inherits from [Object.prototype], which the
      code meets at two names: an assignment to [__proto__] reaches the
      inherited setter and stores nothing ([assign]), and once
      [hasOwnProperty] is an own property the call
      [registers.hasOwnProperty(key)] throws a [TypeError]
      ([hasOwnProperty]).
    - A run is a sequence of calls made by the clients of the bus, each
      call on the stores the previous one left; an exception thrown by a
      call goes to the caller of that call and the later calls still
      happen.
    - Payloads and thrown non-[Error] values are opaque: the development is
      parametric in their type [Value].
    - A callback is its source text ([toString]) and its behaviour on a
      payload: it returns, or it throws.  Callbacks do not call back into
      the bus while they run.
    - Functions run in a monad that threads the three stores, collects the
      observable effects (callback invocations and [console.error] calls)
      and propagates JavaScript exceptions.

    Beside the bus, the file embeds [shopifyCanTrack], [messageOnError] and
    the consent checks in the body of [AnalyticsProvider] ([checkConsent]).
    The React hooks and the asynchronous [getShopAnalytics] are not
    modelled. *)

From stdpp Require Import gmap strings list fin_maps.

#[local] Set Warnings "-clear-no-such-hyp".

(** ** Insertion-ordered maps ([Map] of JavaScript) *)

Module JsMap.

Definition t (V : Type) : Type := list (string * V).

Definition empty {V : Type} : t V := [].

Fixpoint get {V : Type} (k : string) (m : t V) : option V :=
  match m with
  | [] => None
  | (k', v) :: m' => if decide (k = k') then Some v else get k m'
  end.

Definition has {V : Type} (k : string) (m : t V) : bool :=
  match get k m with Some _ => true | None => false end.

(** [m.set(k, v)]: an existing key keeps its place, a new key goes last. *)
Fixpoint set {V : Type} (k : string) (v : V) (m : t V) : t V :=
  match m with
  | [] => [(k, v)]
  | (k', v') :: m' =>
      if decide (k = k') then (k, v) :: m' else (k', v') :: set k v m'
  end.

Definition size {V : Type} (m : t V) : nat := length m.

Definition keys {V : Type} (m : t V) : list string := m.*1.

End JsMap.

Section Bus.

Context {Value : Type}.

(** ** Values thrown by callbacks, and what a call does *)

(** The [catch] clause of [publishEvent] tells an [Error] instance (of
    which it logs [message] and [stack]) from any other thrown value. *)
Inductive Thrown : Type :=
| ThrownError (message stack : string)
| ThrownOther (v : Value).

Inductive Outcome : Type :=
| Returns
| Throws (error : Thrown).

Record Callback : Type := {
  toString : string;
  call : Value -> Outcome
}.

(** ** Observable effects *)

Inductive LogArg : Type :=
| LStr (s : string)
| LVal (v : Value).

Inductive Effect : Type :=
| Invoke (event subscriber : string) (payload : Value)
| ConsoleError (args : list LogArg).

(** ** The module-level stores *)

Record Bus : Type := {
  subscribers : JsMap.t (JsMap.t Callback);
  registers : gmap string bool;
  waitForReadyQueue : JsMap.t Value
}.

Definition init : Bus :=
  {| subscribers := JsMap.empty;
     registers := ∅;
     waitForReadyQueue := JsMap.empty |}.

(** Assignments to one of the three stores. *)
Definition set_subscribers
    (f : JsMap.t (JsMap.t Callback) -> JsMap.t (JsMap.t Callback))
    (s : Bus) : Bus :=
  {| subscribers := f (subscribers s);
     registers := registers s;
     waitForReadyQueue := waitForReadyQueue s |}.

Definition set_registers (f : gmap string bool -> gmap string bool)
    (s : Bus) : Bus :=
  {| subscribers := subscribers s;
     registers := f (registers s);
     waitForReadyQueue := waitForReadyQueue s |}.

Definition set_queue (f : JsMap.t Value -> JsMap.t Value) (s : Bus) : Bus :=
  {| subscribers := subscribers s;
     registers := registers s;
     waitForReadyQueue := f (waitForReadyQueue s) |}.

(** ** The monad: stores, effects, exceptions *)

Inductive Completion (A : Type) : Type :=
| Normal (a : A)
| Abrupt (error : Thrown).

Definition M (A : Type) : Type := Bus -> Bus * list Effect * Completion A.

Definition ret {A : Type} (a : A) : M A :=
  fun s => (s, [], Normal A a).

Definition bind {A B : Type} (m : M A) (k : A -> M B) : M B :=
  fun s =>
    match m s with
    | (s1, l1, Normal _ a) =>
        match k a s1 with
        | (s2, l2, c) => (s2, l1 ++ l2, c)
        end
    | (s1, l1, Abrupt _ e) => (s1, l1, Abrupt B e)
    end.

Definition throw {A : Type} (e : Thrown) : M A :=
  fun s => (s, [], Abrupt A e).

(** [try { m } catch (error) { handler error }] *)
Definition try_catch {A : Type} (m : M A) (handler : Thrown -> M A) : M A :=
  fun s =>
    match m s with
    | (s1, l1, Normal _ a) => (s1, l1, Normal A a)
    | (s1, l1, Abrupt _ e) =>
        match handler e s1 with
        | (s2, l2, c) => (s2, l1 ++ l2, c)
        end
    end.

Definition emit (e : Effect) : M unit :=
  fun s => (s, [e], Normal unit tt).

Definition read {A : Type} (f : Bus -> A) : M A :=
  fun s => (s, [], Normal A (f s)).

Definition modify (f : Bus -> Bus) : M unit :=
  fun s => (f s, [], Normal unit tt).

End Bus.

Arguments Thrown : clear implicits.
Arguments Outcome : clear implicits.
Arguments Callback : clear implicits.
Arguments LogArg : clear implicits.
Arguments Effect : clear implicits.
Arguments Bus : clear implicits.
Arguments M : clear implicits.
Arguments Completion : clear implicits.
Arguments Normal {Value A} a.
Arguments Abrupt {Value A} error.

Declare Scope bus_scope.
Delimit Scope bus_scope with bus.
Notation "'let!' x ':=' m 'in' k" := (bind m (fun x => k))
  (at level 10, x name, m at level 100, k at level 200) : bus_scope.
Notation "m '>>' k" := (bind m (fun _ => k))
  (at level 65, right associativity) : bus_scope.

Section Operations.

Context {Value : Type}.
Local Open Scope bus_scope.

Abbreviation Bus := (Bus Value).
Abbreviation M := (M Value).
Abbreviation Callback := (Callback Value).
Abbreviation Effect := (Effect Value).
Abbreviation Completion := (Completion Value).

(** [registers[key] = flag] on the own properties of [registers]: the
    assignment creates or overwrites the own property [key], except for
    [__proto__], where it calls the setter inherited from
    [Object.prototype]; that setter ignores a value that is not an object
    and stores nothing. *)
Definition assign (key : string) (flag : bool) (own : gmap string bool)
  : gmap string bool :=
  if decide (key = "__proto__"%string) then own else <[key := flag]> own.

(** [registers.hasOwnProperty(key)]: the method is the one inherited from
    [Object.prototype] unless [registers] has an own property of that name,
    which holds a flag; calling a flag throws a [TypeError]. *)
Definition hasOwnProperty (key : string) : M bool :=
  fun s =>
    match registers s !! "hasOwnProperty"%string with
    | Some _ =>
        (s, [],
         Abrupt (ThrownError
                   "TypeError: registers.hasOwnProperty is not a function"
                   EmptyString))
    | None => (s, [], Normal (bool_decide (is_Some (registers s !! key))))
    end.

(** [Object.values(registers).every(Boolean)] *)
Definition areRegistersReady_in (r : gmap string bool) : bool :=
  forallb (fun b : bool => b) (map_to_list r).*2.

Definition areRegistersReady : M bool :=
  read (fun s => areRegistersReady_in (registers s)).

(** [subscribe(event, callback)] *)
Definition subscribe (event : string) (callback : Callback) : M unit :=
  let! known := read (fun s => JsMap.has event (subscribers s)) in
  (if negb known
   then modify (set_subscribers (JsMap.set event JsMap.empty))
   else ret tt) >>
  let! inner := read (fun s => JsMap.get event (subscribers s)) in
  match inner with
  | Some inner =>
      modify (set_subscribers
                (JsMap.set event (JsMap.set (toString callback) callback inner)))
  | None => ret tt
  end.

(** [m.forEach((value, key) => body)] *)
Fixpoint forEach {V : Type} (body : V -> string -> M unit) (m : JsMap.t V)
  : M unit :=
  match m with
  | [] => ret tt
  | (k, v) :: m' => body v k >> forEach body m'
  end.

(** [callback(payload)] for the subscriber stored under key [subscriber]. *)
Definition invoke (event subscriber : string) (callback : Callback)
    (payload : Value) : M unit :=
  emit (Invoke event subscriber payload) >>
  match call callback payload with
  | Returns => ret tt
  | Throws error => throw error
  end.

Definition console_error (args : list (LogArg Value)) : M unit :=
  emit (ConsoleError args).

(** [publishEvent(event, payload)] *)
Definition publishEvent (event : string) (payload : Value) : M unit :=
  let! subs :=
    read (fun s => default JsMap.empty (JsMap.get event (subscribers s))) in
  forEach (fun callback subscriber =>
    try_catch
      (invoke event subscriber callback payload)
      (fun error =>
         match error with
         | ThrownError message stack =>
             console_error
               [LStr "Analytics publish error"%string; LStr message;
                LStr subscriber; LStr stack]
         | ThrownOther v =>
             console_error
               [LStr "Analytics publish error"%string; LVal v; LStr subscriber]
         end))
    subs.

(** [publish(event, payload)] *)
Definition publish (event : string) (payload : Value) : M unit :=
  let! ready := areRegistersReady in
  if negb ready
  then modify (set_queue (JsMap.set event payload))
  else publishEvent event payload.

(** The [ready] closure returned by [register(key)]. *)
Definition ready (key : string) : M unit :=
  modify (set_registers (assign key true)) >>
  let! allReady := areRegistersReady in
  let! pending := read (fun s => JsMap.size (waitForReadyQueue s)) in
  if allReady && bool_decide (0 < pending)
  then
    (let! queue := read waitForReadyQueue in
     forEach (fun queuePayload queueEvent =>
                publishEvent queueEvent queuePayload) queue) >>
    modify (set_queue (fun _ => JsMap.empty))
  else ret tt.

(** [register(key)]; the [ready] of the object it returns is [ready key]. *)
Definition register (key : string) : M unit :=
  let! own := hasOwnProperty key in
  if negb own
  then modify (set_registers (assign key false))
  else ret tt.

(** ** Runs of the bus *)

(** The calls a client can make; [OpReady key] is a call of the [ready]
    closure that some [register(key)] returned. *)
Inductive Op : Type :=
| OpSubscribe (event : string) (callback : Callback)
| OpPublish (event : string) (payload : Value)
| OpRegister (key : string)
| OpReady (key : string).

Definition step (op : Op) : M unit :=
  match op with
  | OpSubscribe event callback => subscribe event callback
  | OpPublish event payload => publish event payload
  | OpRegister key => register key
  | OpReady key => ready key
  end.

(** The calls [ops], one after the other; what a call throws ends that
    call only. *)
Fixpoint run (ops : list Op) : M unit :=
  match ops with
  | [] => ret tt
  | op :: ops' => try_catch (step op) (fun _ => ret tt) >> run ops'
  end.

Definition state_of {A : Type} (r : Bus * list Effect * Completion A) : Bus :=
  r.1.1.
Definition effects_of {A : Type} (r : Bus * list Effect * Completion A)
  : list Effect := r.1.2.
Definition completion_of {A : Type} (r : Bus * list Effect * Completion A)
  : Completion A := r.2.

(** The stores after the calls [ops], starting from a fresh module. *)
Definition exec (ops : list Op) : Bus := state_of (run ops init).

(** The gate, as [publish] and [ready] see it. *)
Definition gate_open (s : Bus) : bool := areRegistersReady_in (registers s).

End Operations.

(** ** Observations on the stores and on effects *)

Section Observations.

Context {Value : Type}.

Abbreviation Bus := (Bus Value).
Abbreviation Callback := (Callback Value).
Abbreviation Effect := (Effect Value).

(** The current subscribers of [event]:
    [subscribers.get(event) ?? new Map()]. *)
Definition allSubscribersFor (event : string) (s : Bus) : JsMap.t Callback :=
  default JsMap.empty (JsMap.get event (subscribers s)).

(** The effects of one guarded callback invocation of [publishEvent]. *)
Definition deliver_to (event : string) (payload : Value)
    (entry : string * Callback) : list Effect :=
  Invoke event entry.1 payload ::
  match call entry.2 payload with
  | Returns => []
  | Throws (ThrownError message stack) =>
      [ConsoleError
         [LStr "Analytics publish error"%string; LStr message;
          LStr entry.1; LStr stack]]
  | Throws (ThrownOther v) =>
      [ConsoleError
         [LStr "Analytics publish error"%string; LVal v; LStr entry.1]]
  end.

Definition deliveries (event : string) (payload : Value)
    (subs : JsMap.t Callback) : list Effect :=
  flat_map (deliver_to event payload) subs.

(** The effects of flushing the queue [q] over the stores [s]. *)
Definition flush_effects (s : Bus) (q : JsMap.t Value) : list Effect :=
  flat_map (fun entry => deliveries entry.1 entry.2 (allSubscribersFor entry.1 s)) q.

(** The callback invocations for [event] among some effects, as
    (subscriber key, payload) pairs in the order they happened. *)
Fixpoint calls_of (event : string) (effects : list Effect)
  : list (string * Value) :=
  match effects with
  | [] => []
  | Invoke event' subscriber payload :: rest =>
      if decide (event' = event)
      then (subscriber, payload) :: calls_of event rest
      else calls_of event rest
  | ConsoleError _ :: rest => calls_of event rest
  end.

(** All callback invocations among some effects, as (event, subscriber
    key, payload) triples. *)
Fixpoint invocations (effects : list Effect) : list (string * string * Value) :=
  match effects with
  | [] => []
  | Invoke event subscriber payload :: rest =>
      (event, subscriber, payload) :: invocations rest
  | ConsoleError _ :: rest => invocations rest
  end.

End Observations.

(** ** Vocabulary for statements about runs *)

Section RunVocabulary.

Context {Value : Type}.
Implicit Types (s : Bus Value) (ops : list (Op (Value := Value))).

(** The names passed to [register] in a run, in call order. *)
Fixpoint registered ops : list string :=
  match ops with
  | [] => []
  | OpRegister key :: ops' => key :: registered ops'
  | _ :: ops' => registered ops'
  end.

(** The names whose [ready] closure was called in a run. *)
Fixpoint readied ops : list string :=
  match ops with
  | [] => []
  | OpReady key :: ops' => key :: readied ops'
  | _ :: ops' => readied ops'
  end.

(** The (event, payload) pairs passed to [publish] in a run, in call
    order. *)
Fixpoint published ops : list (string * Value) :=
  match ops with
  | [] => []
  | OpPublish event payload :: ops' => (event, payload) :: published ops'
  | _ :: ops' => published ops'
  end.

(** No call of the run publishes [event]. *)
Definition no_publish_of (event : string) ops : bool :=
  forallb (fun entry => negb (bool_decide (entry.1 = event))) (published ops).

(** The run neither registers [__proto__] nor registers or readies
    [hasOwnProperty], the two names at which [registers] shows that it is
    an object and not a dictionary. *)
Definition ordinary_names ops : bool :=
  bool_decide ("__proto__"%string ∉ registered ops)
  && bool_decide ("hasOwnProperty"%string ∉ registered ops)
  && bool_decide ("hasOwnProperty"%string ∉ readied ops).

(** The gate is closed after each call of the run [ops] started in [s]. *)
Fixpoint closed_throughout ops s : bool :=
  match ops with
  | [] => true
  | op :: ops' =>
      negb (gate_open (state_of (step op s)))
      && closed_throughout ops' (state_of (step op s))
  end.

(** The number of calls of the run [ops] started in [s] before which the
    gate is closed and after which it is open. *)
Fixpoint openings ops s : nat :=
  match ops with
  | [] => 0
  | op :: ops' =>
      (if negb (gate_open s) && gate_open (state_of (step op s)) then 1 else 0)
      + openings ops' (state_of (step op s))
  end.

(** The number of calls of the run [ops] started in [s] before which the
    gate is open and after which it is closed. *)
Fixpoint closings ops s : nat :=
  match ops with
  | [] => 0
  | op :: ops' =>
      (if gate_open s && negb (gate_open (state_of (step op s))) then 1 else 0)
      + closings ops' (state_of (step op s))
  end.

(** The queue after the calls [waitForReadyQueue.set(event, payload)] for
    the pairs [pubs], in order, on the queue [q]. *)
Definition enqueue_all (pubs : list (string * Value)) (q : JsMap.t Value)
  : JsMap.t Value :=
  fold_left (fun q entry => JsMap.set entry.1 entry.2 q) pubs q.

(** The stores are well formed: keys of each [Map] are pairwise distinct,
    and nothing is pending while the gate is open. *)
Definition well_formed s : Prop :=
  NoDup (JsMap.keys (subscribers s))
  ∧ (∀ event inner, (event, inner) ∈ subscribers s → NoDup (JsMap.keys inner))
  ∧ NoDup (JsMap.keys (waitForReadyQueue s))
  ∧ (gate_open s = true → waitForReadyQueue s = []).

(** Following the specification of the deferred queue: the kinds of the
    publishes [pubs], each once, in the order in which each kind was first
    enqueued. *)
Fixpoint first_enqueued (pubs : list (string * Value)) : list string :=
  match pubs with
  | [] => []
  | (event, _) :: pubs' =>
      event :: filter (fun event' => event' ≠ event) (first_enqueued pubs')
  end.

(** Following the specification: the payload of the latest publish of
    [event] among [pubs]. *)
Fixpoint latest_payload (event : string) (pubs : list (string * Value))
  : option Value :=
  match pubs with
  | [] => None
  | (event', payload) :: pubs' =>
      match latest_payload event pubs' with
      | Some later => Some later
      | None => if decide (event = event') then Some payload else None
      end
  end.

(** Following the specification ([drainInOrder]): the pending pairs, one
    per kind with its latest payload, in the order of first enqueue. *)
Definition drainInOrder (pubs : list (string * Value)) : list (string * Value) :=
  omap (fun event => (fun payload => (event, payload)) <$> latest_payload event pubs)
    (first_enqueued pubs).

End RunVocabulary.

(** ** Vocabulary for subscriptions and logs *)

Section SubscriptionVocabulary.

Context {Value : Type}.

(** The callbacks passed to [subscribe(event, _)] in a run, in call
    order. *)
Fixpoint subscribed (event : string) (ops : list (Op (Value := Value)))
  : list (Callback Value) :=
  match ops with
  | [] => []
  | OpSubscribe event' callback :: ops' =>
      if decide (event' = event)
      then callback :: subscribed event ops'
      else subscribed event ops'
  | _ :: ops' => subscribed event ops'
  end.

(** The entry [subscribe] stores for a callback: the callback under its
    source text. *)
Definition slot (callback : Callback Value) : string * Callback Value :=
  (toString callback, callback).

(** A list of strings without its repetitions: each string at the place
    of its first occurrence. *)
Fixpoint first_occurrences (l : list string) : list string :=
  match l with
  | [] => []
  | x :: l' => x :: filter (fun y => y ≠ x) (first_occurrences l')
  end.

(** The argument lists of the [console.error] calls among some effects. *)
Fixpoint console_errors (effects : list (Effect Value))
  : list (list (LogArg Value)) :=
  match effects with
  | [] => []
  | Invoke _ _ _ :: rest => console_errors rest
  | ConsoleError args :: rest => args :: console_errors rest
  end.

(** What the [catch] clause of [publishEvent] logs for one subscriber, if
    its callback throws on [payload]. *)
Definition error_report (payload : Value) (entry : string * Callback Value)
  : option (list (LogArg Value)) :=
  match call entry.2 payload with
  | Returns => None
  | Throws (ThrownError message stack) =>
      Some [LStr "Analytics publish error"%string; LStr message;
            LStr entry.1; LStr stack]
  | Throws (ThrownOther v) =>
      Some [LStr "Analytics publish error"%string; LVal v; LStr entry.1]
  end.

(** The callback of a subscriber throws on [payload]. *)
Definition fails_on (payload : Value) (entry : string * Callback Value) : bool :=
  match call entry.2 payload with
  | Returns => false
  | Throws _ => true
  end.

End SubscriptionVocabulary.

(** ** [shopifyCanTrack] *)

Section CanTrack.

Context {Value : Type}.

(** The part of the browser's global object that [shopifyCanTrack] reads.
    A field that is [None] is [undefined]; the method, when present, is
    given by what a call of it does. *)
Record CustomerPrivacyGlobal : Type := {
  analyticsProcessingAllowed : option (Completion Value bool)
}.

Record ShopifyGlobal : Type := {
  customerPrivacy : option CustomerPrivacyGlobal
}.

Record Window : Type := {
  Shopify : option ShopifyGlobal
}.

(** Sequencing of expressions that may throw. *)
Definition and_then {A B : Type} (c : Completion Value A)
    (k : A -> Completion Value B) : Completion Value B :=
  match c with
  | Normal a => k a
  | Abrupt error => Abrupt error
  end.

(** Going through a value that may be [undefined] (reading a property of
    it, or calling it) throws a [TypeError]; so does naming a global that
    is not declared, with a [ReferenceError]. *)
Definition defined {A : Type} (kind : string) (o : option A)
  : Completion Value A :=
  match o with
  | Some a => Normal a
  | None => Abrupt (ThrownError kind ""%string)
  end.

(** [window.Shopify.customerPrivacy.analyticsProcessingAllowed()], where
    [window] itself is absent outside a browser. *)
Definition analyticsProcessingAllowed_call (window : option Window)
  : Completion Value bool :=
  and_then (defined "ReferenceError"%string window) (fun w =>
  and_then (defined "TypeError"%string (Shopify w)) (fun shopify =>
  and_then (defined "TypeError"%string (customerPrivacy shopify)) (fun privacy =>
  and_then (defined "TypeError"%string (analyticsProcessingAllowed privacy))
    (fun result => result)))).

(** [shopifyCanTrack()]: [try { return ...; } catch (e) {} return false;] *)
Definition shopifyCanTrack (window : option Window) : bool :=
  match analyticsProcessingAllowed_call window with
  | Normal allowed => allowed
  | Abrupt _ => false
  end.

End CanTrack.

Arguments CustomerPrivacyGlobal : clear implicits.
Arguments ShopifyGlobal : clear implicits.
Arguments Window : clear implicits.

(** ** The consent checks of [AnalyticsProvider] *)

(** [messageOnError(field, envVar)] *)
Definition messageOnError (field envVar : string) : string :=
  ("[h2:error:Analytics.Provider] - " +:+ field
   +:+ " is required. Make sure " +:+ envVar
   +:+ " is defined in your environment variables. See https://h2o.fyi/analytics/consent to learn how to setup environment variables in the Shopify admin.")%string.

(** The fields of the [consent] prop; an absent field is [None]. *)
Record Consent : Type := {
  checkoutDomain : option string;
  storefrontAccessToken : option string;
  withPrivacyBanner : option bool;
  country : option string;
  language : option string
}.

(** [!field] for a field that is a string or [undefined]. *)
Definition missing (field : option string) : bool :=
  match field with
  | None => true
  | Some text => bool_decide (text = ""%string)
  end.

(** [s] ends with [suffix]. *)
Fixpoint ends_with (suffix s : string) : bool :=
  if bool_decide (s = suffix) then true
  else match s with
       | EmptyString => false
       | String _ s' => ends_with suffix s'
       end.

(** [/\/68817551382$/.test(shopId)] *)
Definition is_mock_shop (shopId : string) : bool :=
  ends_with "/68817551382"%string shopId.

(** The calls of [warnOnce] and [errorOnce], with their message. *)
Inductive Diagnostic : Type :=
| WarnOnce (message : string)
| ErrorOnce (message : string).

Definition mock_shop_warning : string :=
  "[h2:error:Analytics.Provider] - Mock shop is used. Analytics will not work properly."%string.

(** The block [if (!!shop) { ... }] of the body of [AnalyticsProvider]:
    given the resolved shop's [shopId] ([None] while the shop is [null]) and
    the [consent] prop, the [consent] object as the block leaves it and the
    diagnostics it raises, in order. *)
Definition checkConsent (shopId : option string) (consent : Consent)
  : Consent * list Diagnostic :=
  match shopId with
  | None => (consent, [])
  | Some shopId =>
      if is_mock_shop shopId
      then (consent, [WarnOnce mock_shop_warning])
      else
        ({| checkoutDomain := checkoutDomain consent;
            storefrontAccessToken := storefrontAccessToken consent;
            withPrivacyBanner :=
              match withPrivacyBanner consent with
              | None => Some false
              | Some banner => Some banner
              end;
            country :=
              if missing (country consent) then Some "US"%string
              else country consent;
            language :=
              if missing (language consent) then Some "EN"%string
              else language consent |},
         (if missing (checkoutDomain consent)
          then [ErrorOnce (messageOnError "consent.checkoutDomain"
                             "PUBLIC_CHECKOUT_DOMAIN")]
          else [])
         ++ (if missing (storefrontAccessToken consent)
             then [ErrorOnce (messageOnError "consent.storefrontAccessToken"
                                "PUBLIC_STOREFRONT_API_TOKEN")]
             else []))
  end.

(** ** Scenarios *)

(** Payloads are numbers here: [1] stands for [{id: 1}], and so on. *)

Definition quiet (text : string) : Callback nat :=
  {| toString := text; call := fun _ => Returns |}.

Definition failing (text : string) : Callback nat :=
  {| toString := text;
     call := fun _ => Throws (ThrownError "boom" "at failing")%string |}.

Definition picky (text : string) : Callback nat :=
  {| toString := text;
     call := fun payload =>
       match payload with
       | 0 => Throws (ThrownOther 0)
       | _ => Returns
       end |}.

(** [register("pixelA"); register("pixelB")] *)
Definition two_pixels : list (Op (Value := nat)) :=
  [OpRegister "pixelA"; OpRegister "pixelB"]%string.

(** [subscribe("cart_updated", cb); pixelA.ready()] *)
Definition subscribe_then_first_ready : list (Op (Value := nat)) :=
  [OpSubscribe "cart_updated" (quiet "cb"); OpReady "pixelA"]%string.

(** Two subscribers of [cart_updated], the first of which throws, and one
    subscriber of [page_viewed]; then one participant registers and both
    kinds are published. *)
Definition failing_first : list (Op (Value := nat)) :=
  [OpSubscribe "cart_updated" (failing "bad");
   OpSubscribe "cart_updated" (quiet "good");
   OpSubscribe "page_viewed" (quiet "pages");
   OpRegister "pixelA";
   OpPublish "cart_updated" 1;
   OpPublish "page_viewed" 2]%string.

(** While the gate is closed: three publishes of two kinds, the first kind
    published again last. *)
Definition interleaved_publishes : list (Op (Value := nat)) :=
  [OpRegister "pixelA";
   OpPublish "cart_updated" 1;
   OpPublish "page_viewed" 2;
   OpPublish "cart_updated" 3]%string.

(** [register("pixelA")] and the call of the [ready] it returned. *)
Definition ready_pixel : list (Op (Value := nat)) :=
  [OpRegister "pixelA"; OpReady "pixelA"]%string.

(** A participant that registers after the gate has opened. *)
Definition late_participant : list (Op (Value := nat)) :=
  [OpSubscribe "cart_updated" (quiet "cb");
   OpRegister "pixelA";
   OpPublish "cart_updated" 1;
   OpReady "pixelA";
   OpRegister "pixelB";
   OpPublish "cart_updated" 2;
   OpReady "pixelB"]%string.

(** After the gate has opened: a late subscriber, a participant that
    registers late, and a publish of another kind. *)
Definition after_opening : list (Op (Value := nat)) :=
  [OpSubscribe "cart_updated" (quiet "late");
   OpRegister "pixelB";
   OpPublish "page_viewed" 2;
   OpReady "pixelB"]%string.

(** A consent prop that gives the checkout domain and nothing else. *)
Definition domain_only : Consent :=
  {| checkoutDomain := Some "checkout.example.com"%string;
     storefrontAccessToken := None;
     withPrivacyBanner := None;
     country := None;
     language := Some ""%string |}.

(** A subscriber, a participant named [__proto__] that registers and
    never calls [ready], and a publish. *)
Definition proto_participant : list (Op (Value := nat)) :=
  [OpSubscribe "cart_updated" (quiet "cb");
   OpRegister "__proto__";
   OpPublish "cart_updated" 1]%string.

(** A participant named [hasOwnProperty] registers first. *)
Definition hasOwnProperty_participant : list (Op (Value := nat)) :=
  [OpRegister "hasOwnProperty"]%string.

(** Two callbacks with the same source text, subscribed one after the
    other under the same kind. *)
Definition same_text_twice : list (Op (Value := nat)) :=
  [OpSubscribe "cart_updated" (quiet "cb");
   OpSubscribe "cart_updated" (failing "cb")]%string.

(** * Proofs *)

(** ** Lemmas on insertion-ordered maps *)

Section JsMapFacts.

Context {V : Type}.
Implicit Types (m : JsMap.t V) (k : string) (v : V).

Lemma get_set_eq k v m : JsMap.get k (JsMap.set k v m) = Some v.
Proof.
  induction m as [|[k' v'] m IH]; simpl.
  - by rewrite decide_True.
  - destruct (decide (k = k')) as [->|Hne]; simpl.
    + by rewrite decide_True.
    + by rewrite decide_False.
Qed.

Lemma get_set_ne k k' v m :
  k ≠ k' → JsMap.get k' (JsMap.set k v m) = JsMap.get k' m.
Proof.
  intros Hne. induction m as [|[k0 v0] m IH]; simpl.
  - rewrite decide_False; [done | congruence].
  - destruct (decide (k = k0)) as [->|Hk]; simpl.
    + rewrite !decide_False; [done | congruence | congruence].
    + destruct (decide (k' = k0)); [done | apply IH].
Qed.

Lemma get_None_keys k m : JsMap.get k m = None ↔ k ∉ JsMap.keys m.
Proof.
  unfold JsMap.keys. induction m as [|[k' v'] m IH]; simpl.
  - split; [intros _; apply not_elem_of_nil | done].
  - rewrite not_elem_of_cons. destruct (decide (k = k')) as [->|Hne].
    + split; [done | intros [? _]; done].
    + rewrite IH. split; [done | by intros [_ ?]].
Qed.

Lemma get_Some_keys k v m : JsMap.get k m = Some v → k ∈ JsMap.keys m.
Proof.
  intros H. destruct (decide (k ∈ JsMap.keys m)) as [|Hn]; [done|].
  apply get_None_keys in Hn. congruence.
Qed.

Lemma get_Some_elem k v m : JsMap.get k m = Some v → (k, v) ∈ m.
Proof.
  induction m as [|[k' v'] m IH]; simpl; [done|].
  destruct (decide (k = k')) as [->|].
  - intros [= ->]. apply list_elem_of_here.
  - intros H. apply list_elem_of_further. auto.
Qed.

Lemma keys_set_present k v m :
  k ∈ JsMap.keys m → JsMap.keys (JsMap.set k v m) = JsMap.keys m.
Proof.
  unfold JsMap.keys. induction m as [|[k' v'] m IH]; simpl.
  - intros H. by apply elem_of_nil in H.
  - destruct (decide (k = k')) as [->|Hne]; simpl; [done|].
    intros [H|H]%elem_of_cons; [done|]. f_equal. by apply IH.
Qed.

Lemma keys_set_absent k v m :
  k ∉ JsMap.keys m → JsMap.keys (JsMap.set k v m) = JsMap.keys m ++ [k].
Proof.
  unfold JsMap.keys. induction m as [|[k' v'] m IH]; simpl; [done|].
  rewrite not_elem_of_cons. intros [Hne H].
  rewrite decide_False by done. simpl. f_equal. by apply IH.
Qed.

Lemma NoDup_keys_set k v m :
  NoDup (JsMap.keys m) → NoDup (JsMap.keys (JsMap.set k v m)).
Proof.
  intros Hnd. destruct (decide (k ∈ JsMap.keys m)) as [Hin|Hnin].
  - by rewrite keys_set_present.
  - rewrite keys_set_absent by done.
    apply NoDup_app. split_and!; [done | | apply NoDup_singleton].
    intros x Hx ->%list_elem_of_singleton. done.
Qed.

Lemma set_set k v v' m : JsMap.set k v (JsMap.set k v' m) = JsMap.set k v m.
Proof.
  induction m as [|[k' v0] m IH]; simpl.
  - by rewrite decide_True.
  - destruct (decide (k = k')) as [->|Hne]; simpl.
    + by rewrite decide_True.
    + rewrite decide_False by done. f_equal. apply IH.
Qed.

End JsMapFacts.

(** ** The gate *)

Lemma areRegistersReady_in_spec (r : gmap string bool) :
  areRegistersReady_in r = true ↔ ∀ k b, r !! k = Some b → b = true.
Proof.
  unfold areRegistersReady_in. rewrite forallb_forall. split.
  - intros H k b Hk. apply H. apply list_elem_of_In.
    apply list_elem_of_fmap. exists (k, b). split; [done|].
    by apply elem_of_map_to_list.
  - intros H b Hb. apply list_elem_of_In in Hb.
    apply list_elem_of_fmap in Hb as [[k b'] [-> Hkb]].
    apply elem_of_map_to_list in Hkb. by eapply H.
Qed.

Lemma areRegistersReady_in_false (r : gmap string bool) :
  areRegistersReady_in r = false ↔ ∃ k, r !! k = Some false.
Proof.
  split.
  - unfold areRegistersReady_in. intros Hf.
    assert (false ∈ (map_to_list r).*2) as Hin.
    { induction ((map_to_list r).*2) as [|[] l IH]; simpl in Hf; [done| |].
      - apply list_elem_of_further. by apply IH.
      - apply list_elem_of_here. }
    apply list_elem_of_fmap in Hin as [[k b] [Hb Hkb]]. simpl in Hb. subst b.
    exists k. by apply elem_of_map_to_list.
  - intros [k Hk]. destruct (areRegistersReady_in r) eqn:E; [|done].
    rewrite areRegistersReady_in_spec in E. by apply E in Hk.
Qed.

Lemma areRegistersReady_in_empty : areRegistersReady_in ∅ = true.
Proof. apply areRegistersReady_in_spec. intros k b. by rewrite lookup_empty. Qed.

Lemma assign_proto (flag : bool) (r : gmap string bool) :
  assign "__proto__" flag r = r.
Proof. unfold assign. by rewrite decide_True. Qed.

Lemma assign_other key (flag : bool) (r : gmap string bool) :
  key ≠ "__proto__"%string → assign key flag r = <[key := flag]> r.
Proof. intros Hne. unfold assign. by rewrite decide_False. Qed.

Lemma areRegistersReady_in_assign_true key (r : gmap string bool) :
  areRegistersReady_in r = true → areRegistersReady_in (assign key true r) = true.
Proof.
  unfold assign. destruct (decide (key = "__proto__"%string)); [done|].
  rewrite !areRegistersReady_in_spec. intros H k b.
  destruct (decide (key = k)) as [->|Hne].
  - rewrite lookup_insert_eq. congruence.
  - rewrite lookup_insert_ne by done. apply H.
Qed.

Lemma areRegistersReady_in_assign_false key (r : gmap string bool) :
  key ≠ "__proto__"%string → areRegistersReady_in (assign key false r) = false.
Proof.
  intros Hne. rewrite assign_other by done.
  apply areRegistersReady_in_false. exists key. apply lookup_insert_eq.
Qed.

(** ** Equations of the operations *)

Section Equations.

Context {Value : Type}.
Implicit Types (s : Bus Value) (event key : string) (payload : Value).

Lemma subscribe_eq event (callback : Callback Value) s :
  subscribe event callback s =
  (set_subscribers
     (JsMap.set event
        (JsMap.set (toString callback) callback (allSubscribersFor event s)))
     s, [], Normal tt).
Proof.
  unfold subscribe, bind, read, modify, ret, allSubscribersFor, JsMap.has.
  destruct (JsMap.get event (subscribers s)) as [inner|] eqn:E; simpl.
  - by rewrite E.
  - rewrite get_set_eq. unfold set_subscribers; simpl. by rewrite set_set.
Qed.

Lemma guarded_invoke_eq event payload subscriber (callback : Callback Value) s :
  try_catch
    (invoke event subscriber callback payload)
    (fun error =>
       match error with
       | ThrownError message stack =>
           console_error
             [LStr "Analytics publish error"%string; LStr message;
              LStr subscriber; LStr stack]
       | ThrownOther v =>
           console_error
             [LStr "Analytics publish error"%string; LVal v; LStr subscriber]
       end) s
  = (s, deliver_to event payload (subscriber, callback), Normal tt).
Proof.
  unfold try_catch, invoke, bind, emit, deliver_to, console_error, emit, ret,
    throw. simpl.
  destruct (call callback payload) as [|[message stack|v]]; reflexivity.
Qed.

Lemma forEach_deliver event payload (subs : JsMap.t (Callback Value)) s :
  forEach (fun callback subscriber =>
    try_catch
      (invoke event subscriber callback payload)
      (fun error =>
         match error with
         | ThrownError message stack =>
             console_error
               [LStr "Analytics publish error"%string; LStr message;
                LStr subscriber; LStr stack]
         | ThrownOther v =>
             console_error
               [LStr "Analytics publish error"%string; LVal v; LStr subscriber]
         end)) subs s
  = (s, deliveries event payload subs, Normal tt).
Proof.
  revert s. induction subs as [|[subscriber callback] subs IH]; intros s;
    [done|].
  cbn [forEach]. unfold bind. rewrite guarded_invoke_eq, IH. reflexivity.
Qed.

Lemma publishEvent_eq event payload s :
  publishEvent event payload s =
  (s, deliveries event payload (allSubscribersFor event s), Normal tt).
Proof.
  unfold publishEvent, bind, read. by rewrite forEach_deliver.
Qed.

Lemma forEach_publishEvent (q : JsMap.t Value) s :
  forEach (fun queuePayload queueEvent => publishEvent queueEvent queuePayload)
    q s
  = (s, flush_effects s q, Normal tt).
Proof.
  revert s. induction q as [|[event payload] q IH]; intros s; [done|].
  cbn [forEach]. unfold bind. by rewrite publishEvent_eq, IH.
Qed.

Lemma publish_eq event payload s :
  publish event payload s =
  if gate_open s
  then (s, deliveries event payload (allSubscribersFor event s), Normal tt)
  else (set_queue (JsMap.set event payload) s, [], Normal tt).
Proof.
  unfold publish, bind at 1, areRegistersReady, read, gate_open.
  destruct (areRegistersReady_in (registers s)); simpl.
  - by rewrite publishEvent_eq.
  - reflexivity.
Qed.

Lemma register_eq key s :
  register key s =
  match registers s !! "hasOwnProperty"%string with
  | Some _ =>
      (s, [],
       Abrupt (ThrownError
                 "TypeError: registers.hasOwnProperty is not a function"
                 EmptyString))
  | None =>
      (match registers s !! key with
       | Some _ => s
       | None => set_registers (assign key false) s
       end, [], Normal tt)
  end.
Proof.
  unfold register, bind, hasOwnProperty.
  destruct (registers s !! "hasOwnProperty"%string); [done|].
  destruct (registers s !! key) eqn:E; reflexivity.
Qed.

Lemma register_state key s :
  state_of (register key s) =
  match registers s !! "hasOwnProperty"%string, registers s !! key with
  | None, None => set_registers (assign key false) s
  | _, _ => s
  end.
Proof.
  rewrite register_eq.
  destruct (registers s !! "hasOwnProperty"%string); [done|].
  by destruct (registers s !! key).
Qed.

Lemma register_effects key s : effects_of (register key s) = [].
Proof.
  rewrite register_eq.
  by destruct (registers s !! "hasOwnProperty"%string).
Qed.

Lemma ready_eq key s :
  ready key s =
  let s1 := set_registers (assign key true) s in
  if gate_open s1 && bool_decide (0 < JsMap.size (waitForReadyQueue s))
  then (set_queue (fun _ => JsMap.empty) s1,
        flush_effects s1 (waitForReadyQueue s), Normal tt)
  else (s1, [], Normal tt).
Proof.
  unfold ready, bind at 1 2 3, modify at 1, areRegistersReady, read, gate_open.
  simpl.
  destruct (areRegistersReady_in (assign key true (registers s))); simpl;
    [|reflexivity].
  destruct (bool_decide (0 < JsMap.size (waitForReadyQueue s))); simpl;
    [|reflexivity].
  unfold bind. rewrite forEach_publishEvent. simpl.
  by rewrite !app_nil_r.
Qed.

End Equations.

Section JsMapMoreFacts.

Context {V : Type}.
Implicit Types (m : JsMap.t V) (k : string) (v : V).

Lemma elem_of_set k k' v v' m :
  (k', v') ∈ JsMap.set k v m → (k' = k ∧ v' = v) ∨ (k', v') ∈ m.
Proof.
  induction m as [|[k0 v0] m IH]; simpl.
  - intros [= -> ->]%list_elem_of_singleton. by left.
  - destruct (decide (k = k0)) as [->|Hne].
    + intros [H|H]%elem_of_cons; [injection H as -> ->; by left|].
      right. by apply list_elem_of_further.
    + intros [H|H]%elem_of_cons.
      * right. rewrite H. apply list_elem_of_here.
      * destruct (IH H) as [?|?]; [by left|].
        right. by apply list_elem_of_further.
Qed.

Lemma size_pos_nonempty m : bool_decide (0 < JsMap.size m) = false → m = [].
Proof.
  destruct m; [done|]. intros H.
  apply bool_decide_eq_false in H. unfold JsMap.size in H. simpl in H. lia.
Qed.

End JsMapMoreFacts.

(** ** Runs: composition and normal completion *)

Section Runs.

Context {Value : Type}.
Implicit Types (s : Bus Value) (op : Op (Value := Value))
  (ops : list (Op (Value := Value))).

(** [publish] and [ready] never throw; [subscribe] neither. *)
Lemma publish_normal event payload s :
  completion_of (publish event payload s) = Normal tt.
Proof. rewrite publish_eq. by destruct (gate_open s). Qed.

Lemma ready_normal key s : completion_of (ready key s) = Normal tt.
Proof. rewrite ready_eq. simpl. by destruct (_ && _). Qed.

Lemma run_cons op ops s :
  run (op :: ops) s =
  (state_of (run ops (state_of (step op s))),
   effects_of (step op s) ++ effects_of (run ops (state_of (step op s))),
   completion_of (run ops (state_of (step op s)))).
Proof.
  cbn [run]. unfold bind, try_catch, ret.
  destruct (step op s) as [[s1 l1] [[]|error]];
    unfold state_of, effects_of, completion_of; simpl;
    destruct (run ops s1) as [[s2 l2] c2]; simpl; by rewrite ?app_nil_r.
Qed.

Lemma run_normal ops s : completion_of (run ops s) = Normal tt.
Proof.
  revert s. induction ops as [|op ops IH]; intros s; [done|].
  rewrite run_cons. apply IH.
Qed.

Lemma state_run_cons op ops s :
  state_of (run (op :: ops) s) = state_of (run ops (state_of (step op s))).
Proof. by rewrite run_cons. Qed.

Lemma effects_run_cons op ops s :
  effects_of (run (op :: ops) s) =
  effects_of (step op s) ++ effects_of (run ops (state_of (step op s))).
Proof. by rewrite run_cons. Qed.

Lemma state_run_app ops1 ops2 s :
  state_of (run (ops1 ++ ops2) s) = state_of (run ops2 (state_of (run ops1 s))).
Proof.
  revert s. induction ops1 as [|op ops1 IH]; intros s; [done|].
  by rewrite <- app_comm_cons, !state_run_cons, IH.
Qed.

Lemma effects_run_app ops1 ops2 s :
  effects_of (run (ops1 ++ ops2) s) =
  effects_of (run ops1 s) ++ effects_of (run ops2 (state_of (run ops1 s))).
Proof.
  revert s. induction ops1 as [|op ops1 IH]; intros s; [done|].
  rewrite <- app_comm_cons, !effects_run_cons, !state_run_cons, IH.
  by rewrite app_assoc.
Qed.

Lemma state_run_one op s : state_of (run [op] s) = state_of (step op s).
Proof. by rewrite state_run_cons. Qed.

Lemma effects_run_one op s : effects_of (run [op] s) = effects_of (step op s).
Proof. rewrite effects_run_cons. apply app_nil_r. Qed.

Lemma exec_app ops1 ops2 :
  exec (ops1 ++ ops2) = state_of (run ops2 (exec ops1)).
Proof. apply state_run_app. Qed.

Lemma exec_snoc ops op : exec (ops ++ [op]) = state_of (step op (exec ops)).
Proof. by rewrite exec_app, state_run_one. Qed.

End Runs.

(** ** Well-formedness is an invariant of every run *)

Section Invariant.

Context {Value : Type}.
Implicit Types (s : Bus Value) (op : Op (Value := Value))
  (ops : list (Op (Value := Value))).

Lemma well_formed_init : well_formed (init (Value := Value)).
Proof.
  unfold well_formed, init; simpl. split_and!; try apply NoDup_nil_2; [|done].
  intros event inner H. by apply elem_of_nil in H.
Qed.

Lemma allSubscribersFor_NoDup event s :
  well_formed s → NoDup (JsMap.keys (allSubscribersFor event s)).
Proof.
  intros (_ & Hinner & _). unfold allSubscribersFor.
  destruct (JsMap.get event (subscribers s)) as [inner|] eqn:E; simpl.
  - eapply Hinner. by apply get_Some_elem.
  - apply NoDup_nil_2.
Qed.

Lemma well_formed_step op s : well_formed s → well_formed (state_of (step op s)).
Proof.
  intros Hwf. pose proof Hwf as (Hsubs & Hinner & Hqueue & Hgate).
  destruct op as [event callback|event payload|key|key]; simpl.
  - rewrite subscribe_eq. unfold state_of, set_subscribers; simpl.
    split_and!; [by apply NoDup_keys_set | | done | done].
    intros event' inner [[-> ->]|Hin]%elem_of_set; [|by eapply Hinner].
    apply NoDup_keys_set. by apply allSubscribersFor_NoDup.
  - rewrite publish_eq. destruct (gate_open s) eqn:Hg; [done|].
    unfold state_of, set_queue, well_formed, gate_open in *; simpl.
    split_and!; [done | done | by apply NoDup_keys_set | congruence].
  - rewrite register_state.
    destruct (registers s !! "hasOwnProperty"%string); [done|].
    destruct (registers s !! key) as [b|] eqn:Hk; [done|].
    unfold set_registers, well_formed, gate_open in *; simpl.
    split_and!; [done | done | done |].
    destruct (decide (key = "__proto__"%string)) as [->|Hne].
    + by rewrite assign_proto.
    + by rewrite areRegistersReady_in_assign_false.
  - rewrite ready_eq. cbv zeta.
    destruct (gate_open (set_registers (assign key true) s)) eqn:Hg; simpl.
    + destruct (bool_decide (0 < JsMap.size (waitForReadyQueue s))) eqn:Hsz.
      * unfold state_of, set_queue, set_registers, well_formed; simpl.
        split_and!; [done | done | apply NoDup_nil_2 | done].
      * unfold state_of, set_registers, well_formed; simpl.
        split_and!; [done | done | done |]. intros _.
        by apply size_pos_nonempty.
    + unfold state_of, well_formed; simpl.
      split_and!; [done | done | done | congruence].
Qed.

Lemma well_formed_run ops s : well_formed s → well_formed (state_of (run ops s)).
Proof.
  revert s. induction ops as [|op ops IH]; intros s Hwf; [done|].
  rewrite state_run_cons. apply IH. by apply well_formed_step.
Qed.

Lemma well_formed_exec ops : well_formed (exec ops).
Proof. apply well_formed_run, well_formed_init. Qed.

End Invariant.

(** ** The readiness flags along a run *)

Section Readiness.

Context {Value : Type}.
Implicit Types (s : Bus Value) (op : Op (Value := Value))
  (ops : list (Op (Value := Value))).

Lemma registers_step op s :
  registers (state_of (step op s)) =
  match op with
  | OpRegister key =>
      match registers s !! "hasOwnProperty"%string, registers s !! key with
      | None, None => assign key false (registers s)
      | _, _ => registers s
      end
  | OpReady key => assign key true (registers s)
  | _ => registers s
  end.
Proof.
  destruct op as [event callback|event payload|key|key]; cbn [step].
  - by rewrite subscribe_eq.
  - rewrite publish_eq. by destruct (gate_open s).
  - rewrite register_state.
    destruct (registers s !! "hasOwnProperty"%string); [done|].
    by destruct (registers s !! key).
  - rewrite ready_eq. cbv zeta. by destruct (_ && _).
Qed.

Lemma registered_app ops1 ops2 :
  registered (ops1 ++ ops2) = registered ops1 ++ registered ops2.
Proof.
  induction ops1 as [|[] ops1 IH]; simpl; by rewrite ?IH.
Qed.

Lemma readied_app ops1 ops2 :
  readied (ops1 ++ ops2) = readied ops1 ++ readied ops2.
Proof.
  induction ops1 as [|[] ops1 IH]; simpl; by rewrite ?IH.
Qed.

Lemma published_app ops1 ops2 :
  published (ops1 ++ ops2) = published ops1 ++ published ops2.
Proof.
  induction ops1 as [|[] ops1 IH]; simpl; by rewrite ?IH.
Qed.

(** A flag that is stored stays stored, and a flag that is [true] stays
    [true]. *)
Lemma stored_step op key s :
  is_Some (registers s !! key) →
  is_Some (registers (state_of (step op s)) !! key).
Proof.
  intros Hsome. rewrite registers_step.
  destruct op as [event callback|event payload|key'|key']; try done.
  - destruct (registers s !! "hasOwnProperty"%string); [done|].
    destruct (registers s !! key') eqn:Hk'; [done|].
    unfold assign. destruct (decide (key' = "__proto__"%string)); [done|].
    rewrite lookup_insert_ne; [done|]. intros ->. rewrite Hk' in Hsome.
    by destruct Hsome.
  - unfold assign. destruct (decide (key' = "__proto__"%string)); [done|].
    destruct (decide (key' = key)) as [->|Hne].
    + rewrite lookup_insert_eq. eauto.
    + by rewrite lookup_insert_ne.
Qed.

Lemma flag_true_step op key s :
  registers s !! key = Some true →
  registers (state_of (step op s)) !! key = Some true.
Proof.
  intros Htrue. rewrite registers_step.
  destruct op as [event callback|event payload|key'|key']; try done.
  - destruct (registers s !! "hasOwnProperty"%string); [done|].
    destruct (registers s !! key') eqn:Hk'; [done|].
    unfold assign. destruct (decide (key' = "__proto__"%string)); [done|].
    rewrite lookup_insert_ne; [done|]. intros ->. congruence.
  - unfold assign. destruct (decide (key' = "__proto__"%string)); [done|].
    destruct (decide (key' = key)) as [->|Hne].
    + by rewrite lookup_insert_eq.
    + by rewrite lookup_insert_ne.
Qed.

(** A flag that is [false] stays [false] until the [ready] of its name is
    called. *)
Lemma flag_false_step op key s :
  registers s !! key = Some false → op ≠ OpReady key →
  registers (state_of (step op s)) !! key = Some false.
Proof.
  intros Hfalse Hop. rewrite registers_step.
  destruct op as [event callback|event payload|key'|key']; try done.
  - destruct (registers s !! "hasOwnProperty"%string); [done|].
    destruct (registers s !! key') eqn:Hk'; [done|].
    unfold assign. destruct (decide (key' = "__proto__"%string)); [done|].
    rewrite lookup_insert_ne; [done|]. intros ->. congruence.
  - unfold assign. destruct (decide (key' = "__proto__"%string)); [done|].
    rewrite lookup_insert_ne; [done|]. intros ->. done.
Qed.

Lemma stored_run ops key s :
  is_Some (registers s !! key) →
  is_Some (registers (state_of (run ops s)) !! key).
Proof.
  revert s. induction ops as [|op ops IH]; intros s Hsome; [done|].
  rewrite state_run_cons. by apply IH, stored_step.
Qed.

Lemma flag_true_run ops key s :
  registers s !! key = Some true →
  registers (state_of (run ops s)) !! key = Some true.
Proof.
  revert s. induction ops as [|op ops IH]; intros s Htrue; [done|].
  rewrite state_run_cons. by apply IH, flag_true_step.
Qed.

(** The stored flags after a run, against the calls of the run: nothing is
    ever stored under [__proto__]; the flag of a name is [true] exactly
    when its [ready] was called (and the name is not [__proto__]); a flag
    that is [false] belongs to a name that was registered and whose [ready]
    was not called. *)
Lemma registers_exec ops :
  registers (exec ops) !! "__proto__"%string = None
  ∧ ∀ key,
      (key ∈ readied ops → key ≠ "__proto__"%string →
       registers (exec ops) !! key = Some true)
      ∧ (registers (exec ops) !! key = Some true → key ∈ readied ops)
      ∧ (registers (exec ops) !! key = Some false →
         key ∈ registered ops ∧ key ∉ readied ops).
Proof.
  induction ops as [|op ops (Hproto & IH)] using rev_ind.
  - split; [apply lookup_empty|]. intros key.
    change (exec (Value := Value) []) with (init (Value := Value)). simpl.
    rewrite lookup_empty. split_and!; [by intros ?%elem_of_nil | done | done].
  - rewrite exec_snoc, registers_step, registered_app, readied_app.
    destruct op as [event callback|event payload|key'|key']; simpl;
      rewrite ?app_nil_r; try (split; [done|]; intros key; apply IH).
    + assert (∀ key,
                (key ∈ readied ops → key ≠ "__proto__"%string →
                 registers (exec ops) !! key = Some true)
                ∧ (registers (exec ops) !! key = Some true → key ∈ readied ops)
                ∧ (registers (exec ops) !! key = Some false →
                   key ∈ registered ops ++ [key'] ∧ key ∉ readied ops)) as Hsame.
      { intros key. destruct (IH key) as (H1 & H2 & H3).
        split_and!; [done | done |]. intros [? ?]%H3.
        split; [|done]. apply elem_of_app. by left. }
      destruct (registers (exec ops) !! "hasOwnProperty"%string); [done|].
      destruct (registers (exec ops) !! key') eqn:Hk'; [done|].
      unfold assign. destruct (decide (key' = "__proto__"%string)); [done|].
      split; [by rewrite lookup_insert_ne|]. intros key.
      destruct (IH key) as (H1 & H2 & H3).
      destruct (decide (key' = key)) as [->|Hne].
      * rewrite lookup_insert_eq. split_and!.
        -- intros Hin Hnp. rewrite (H1 Hin Hnp) in Hk'. done.
        -- done.
        -- intros _. split.
           ++ apply elem_of_app. right. apply list_elem_of_here.
           ++ intros Hin. rewrite (H1 Hin n) in Hk'. done.
      * rewrite lookup_insert_ne by done. apply Hsame.
    + unfold assign. destruct (decide (key' = "__proto__"%string)) as [->|Hnp].
      * split; [done|]. intros key. destruct (IH key) as (H1 & H2 & H3).
        split_and!.
        -- intros [Hin| ->%list_elem_of_singleton]%elem_of_app Hne; [auto|done].
        -- intros Htrue. apply elem_of_app. left. auto.
        -- intros Hfalse. destruct (H3 Hfalse) as [Hreg Hnot].
           split; [done|]. intros [Hin| ->%list_elem_of_singleton]%elem_of_app;
             [done|congruence].
      * split; [by rewrite lookup_insert_ne|]. intros key.
        destruct (IH key) as (H1 & H2 & H3).
        destruct (decide (key' = key)) as [->|Hne].
        -- rewrite lookup_insert_eq. split_and!; [done | | done].
           intros _. apply elem_of_app. right. apply list_elem_of_here.
        -- rewrite lookup_insert_ne by done. split_and!.
           ++ intros [Hin| ->%list_elem_of_singleton]%elem_of_app Hne';
                [auto|done].
           ++ intros Htrue. apply elem_of_app. left. auto.
           ++ intros Hfalse. destruct (H3 Hfalse) as [Hreg Hnot].
              split; [done|].
              intros [Hin| ->%list_elem_of_singleton]%elem_of_app; done.
Qed.

Lemma flag_false_origin ops key :
  registers (exec ops) !! key = Some false →
  key ∈ registered ops ∧ key ∉ readied ops.
Proof. apply registers_exec. Qed.

Lemma flag_readied ops key :
  key ∈ readied ops → key ≠ "__proto__"%string →
  registers (exec ops) !! key = Some true.
Proof. apply registers_exec. Qed.

(** While [hasOwnProperty] is not stored, every registered name other
    than [__proto__] is stored. *)
Lemma registered_stored ops key :
  registers (exec ops) !! "hasOwnProperty"%string = None →
  key ∈ registered ops → key ≠ "__proto__"%string →
  is_Some (registers (exec ops) !! key).
Proof.
  induction ops as [|op ops IH] using rev_ind; [by intros _ ?%elem_of_nil|].
  rewrite exec_snoc, registered_app. intros Hnone Hin Hnp.
  assert (registers (exec ops) !! "hasOwnProperty"%string = None) as Hbefore.
  { destruct (registers (exec ops) !! "hasOwnProperty"%string) as [flag|]
      eqn:Hh; [|done].
    destruct (stored_step op "hasOwnProperty" (exec ops)) as [flag' Hb];
      [eauto|]. congruence. }
  apply elem_of_app in Hin as [Hin|Hin].
  - by apply stored_step, IH.
  - destruct op as [event callback|event payload|key'|key']; simpl in Hin;
      try by apply elem_of_nil in Hin.
    apply list_elem_of_singleton in Hin as ->.
    rewrite registers_step, Hbefore.
    destruct (registers (exec ops) !! key') eqn:Hk'; [eauto|].
    rewrite assign_other by done. rewrite lookup_insert_eq. eauto.
Qed.

(** With no [register] call in the run, the gate is open. *)
Lemma gate_open_unregistered ops :
  registered ops = [] → gate_open (exec ops) = true.
Proof.
  intros Hnone. apply areRegistersReady_in_spec. intros key [] Hk; [done|].
  apply flag_false_origin in Hk as [Hin _]. rewrite Hnone in Hin.
  by apply elem_of_nil in Hin.
Qed.

(** For runs that neither register [__proto__] nor register or ready
    [hasOwnProperty], the gate is open exactly when every registered name
    was readied. *)
Lemma gate_open_exec ops :
  ordinary_names ops = true →
  gate_open (exec ops) = true ↔ ∀ key, key ∈ registered ops → key ∈ readied ops.
Proof.
  unfold ordinary_names. rewrite !andb_true_iff, !bool_decide_eq_true.
  intros [[Hproto Hreg] Hrdy].
  assert (registers (exec ops) !! "hasOwnProperty"%string = None) as Hnone.
  { destruct (registers (exec ops) !! "hasOwnProperty"%string) as [[]|] eqn:Hh;
      [|by apply flag_false_origin in Hh as [? _] | done].
    exfalso. apply Hrdy. by apply registers_exec. }
  unfold gate_open. rewrite areRegistersReady_in_spec. split.
  - intros H key Hin.
    destruct (decide (key ∈ readied ops)) as [|Hnot]; [done|]. exfalso.
    assert (key ≠ "__proto__"%string) as Hnp by (by intros ->).
    destruct (registered_stored ops key Hnone Hin Hnp) as [[] Hb].
    + apply Hnot. by apply registers_exec.
    + by specialize (H key false Hb).
  - intros H key [] Hk; [done|].
    apply flag_false_origin in Hk as [Hin Hnot]. by apply H in Hin.
Qed.

(** [register("__proto__")] never stores anything. *)
Lemma register_proto_stores_nothing ops :
  registers (exec (ops ++ [OpRegister "__proto__"])) = registers (exec ops).
Proof.
  rewrite exec_snoc, registers_step.
  destruct (registers (exec ops) !! "hasOwnProperty"%string); [done|].
  destruct (registers (exec ops) !! "__proto__"%string); [done|].
  apply assign_proto.
Qed.

(** X16. In every run that neither registers [__proto__] nor registers or
    readies [hasOwnProperty], the gate is open if and only if every name
    passed to [register] has had its [ready] called at least once. *)
Theorem gate_open_iff_all_ready_for_ordinary_names ops :
  ordinary_names ops = true →
  gate_open (exec ops) = true ↔ ∀ key, key ∈ registered ops → key ∈ readied ops.
Proof. apply gate_open_exec. Qed.

End Readiness.

(** ** Invocations within delivered effects *)

Section Deliveries.

Context {Value : Type}.
Implicit Types (s : Bus Value) (op : Op (Value := Value))
  (ops : list (Op (Value := Value))) (subs : JsMap.t (Callback Value))
  (q : JsMap.t Value) (event key : string) (payload : Value).

Lemma calls_of_app event (l1 l2 : list (Effect Value)) :
  calls_of event (l1 ++ l2) = calls_of event l1 ++ calls_of event l2.
Proof.
  induction l1 as [|[event' sub payload|args] l1 IH]; simpl; [done| |done].
  destruct (decide (event' = event)); simpl; by rewrite IH.
Qed.

Lemma calls_of_deliver_to event event' payload (entry : string * Callback Value) :
  calls_of event (deliver_to event' payload entry) =
  if decide (event' = event) then [(entry.1, payload)] else [].
Proof.
  unfold deliver_to. simpl.
  destruct (call entry.2 payload) as [|[message stack|v]];
    destruct (decide (event' = event)); reflexivity.
Qed.

Lemma calls_of_deliveries event payload subs :
  calls_of event (deliveries event payload subs) =
  (fun sub => (sub, payload)) <$> JsMap.keys subs.
Proof.
  unfold deliveries, JsMap.keys. induction subs as [|entry subs IH]; [done|].
  cbn [flat_map]. rewrite calls_of_app, calls_of_deliver_to, IH.
  by rewrite decide_True.
Qed.

Lemma calls_of_deliveries_other event event' payload subs :
  event' ≠ event → calls_of event (deliveries event' payload subs) = [].
Proof.
  intros Hne. unfold deliveries. induction subs as [|entry subs IH]; [done|].
  cbn [flat_map]. rewrite calls_of_app, calls_of_deliver_to, IH.
  by rewrite decide_False.
Qed.

(** In a flush, the invocations for [event] are those of its one pending
    entry. *)
Lemma calls_of_flush event s q :
  NoDup (JsMap.keys q) →
  calls_of event (flush_effects s q) =
  match JsMap.get event q with
  | Some payload =>
      (fun sub => (sub, payload)) <$> JsMap.keys (allSubscribersFor event s)
  | None => []
  end.
Proof.
  unfold flush_effects, JsMap.keys.
  induction q as [|[event' payload] q IH]; [done|].
  rewrite fmap_cons, NoDup_cons. simpl fst. intros [Hnotin Hnd].
  cbn [flat_map JsMap.get fst snd]. rewrite calls_of_app, (IH Hnd).
  destruct (decide (event = event')) as [->|Hne].
  - rewrite calls_of_deliveries.
    apply get_None_keys in Hnotin. rewrite Hnotin. apply app_nil_r.
  - by rewrite calls_of_deliveries_other.
Qed.

(** A [ready] call after which the gate is open flushes the whole queue
    and leaves it empty. *)
Lemma ready_opening key s :
  gate_open (state_of (ready key s)) = true →
  ready key s =
  (set_queue (fun _ => JsMap.empty) (set_registers (assign key true) s),
   flush_effects s (waitForReadyQueue s), Normal tt).
Proof.
  rewrite ready_eq. cbv zeta.
  destruct (gate_open (set_registers (assign key true) s)) eqn:Hg; simpl.
  - intros _. destruct (bool_decide _) eqn:Hsz; [done|].
    apply size_pos_nonempty in Hsz. unfold set_queue, set_registers; simpl.
    by rewrite Hsz.
  - unfold state_of; simpl. congruence.
Qed.

(** A [ready] call after which the gate is closed only sets the flag. *)
Lemma ready_closed key s :
  gate_open (state_of (ready key s)) = false →
  ready key s = (set_registers (assign key true) s, [], Normal tt).
Proof.
  rewrite ready_eq. cbv zeta.
  destruct (gate_open (set_registers (assign key true) s)) eqn:Hg; simpl;
    [|done].
  destruct (bool_decide _); unfold state_of; simpl; intros Hc;
    unfold gate_open, set_queue in *; simpl in *; congruence.
Qed.

End Deliveries.

(** ** The queue and the gate *)

Section QueueAndGate.

Context {Value : Type}.
Implicit Types (s : Bus Value) (op : Op (Value := Value))
  (ops : list (Op (Value := Value))) (event key : string) (payload : Value).

Lemma ready_no_flush_when_open key s :
  well_formed s → gate_open s = true →
  ready key s = (set_registers (assign key true) s, [], Normal tt).
Proof.
  intros (_ & _ & _ & Hgate) Hopen. rewrite ready_eq. cbv zeta.
  rewrite (Hgate Hopen). simpl. by rewrite andb_false_r.
Qed.

(** C10. After every run of [subscribe], [publish], [register] and [ready]
    calls, if the gate is open then nothing is pending; and a [ready] call
    made while the gate is open delivers nothing and leaves the queue
    empty, so a pending payload that was flushed is not delivered again by
    further [ready] calls. *)
Theorem open_gate_has_empty_queue ops :
  gate_open (exec ops) = true →
  waitForReadyQueue (exec ops) = []
  ∧ ∀ key,
      effects_of (ready key (exec ops)) = []
      ∧ waitForReadyQueue (state_of (ready key (exec ops))) = [].
Proof.
  intros Hopen. pose proof (well_formed_exec ops) as Hwf.
  pose proof Hwf as (_ & _ & _ & Hgate). split; [by apply Hgate|].
  intros key. rewrite ready_no_flush_when_open by done.
  split; [done|]. unfold state_of; simpl. by apply Hgate.
Qed.

(** Calling [ready] for a name whose [ready] was called before changes
    nothing and delivers nothing. *)
Lemma ready_again ops key :
  key ∈ readied ops → ready key (exec ops) = (exec ops, [], Normal tt).
Proof.
  intros Hrdy.
  assert (set_registers (assign key true) (exec ops) = exec ops) as Hid.
  { unfold set_registers, assign.
    destruct (decide (key = "__proto__"%string)); [by destruct (exec ops)|].
    rewrite (insert_id _ _ _ (flag_readied ops key Hrdy n)).
    by destruct (exec ops). }
  destruct (well_formed_exec ops) as (_ & _ & _ & Hgate).
  rewrite ready_eq. cbv zeta. rewrite Hid.
  destruct (gate_open (exec ops)) eqn:Hopen; [|done].
  rewrite (Hgate eq_refl). reflexivity.
Qed.

(** Calling [register] for a name that was passed to [register] before
    changes nothing and delivers nothing. *)
Lemma register_again ops key :
  key ∈ registered ops →
  state_of (register key (exec ops)) = exec ops
  ∧ effects_of (register key (exec ops)) = [].
Proof.
  intros Hreg. split; [|apply register_effects]. rewrite register_state.
  destruct (registers (exec ops) !! "hasOwnProperty"%string) eqn:Hh; [done|].
  destruct (registers (exec ops) !! key) eqn:Hk; [done|].
  destruct (decide (key = "__proto__"%string)) as [->|Hnp].
  - unfold set_registers. rewrite assign_proto. by destruct (exec ops).
  - destruct (registered_stored ops key Hh Hreg Hnp) as [flag Hflag].
    congruence.
Qed.

(** C9. Calling [register] again for a name leaves the stores as they
    are, so it does not reset the flag of the name, and it completes
    normally as long as no flag is stored under [hasOwnProperty]; calling
    [ready] again for a name changes nothing and delivers nothing; and a
    flag that is [true] stays [true] in every continuation of the run,
    also across later [register] calls of its name. *)
Theorem register_and_ready_idempotent ops key :
  (key ∈ registered ops →
     state_of (register key (exec ops)) = exec ops
     ∧ effects_of (register key (exec ops)) = []
     ∧ (registers (exec ops) !! "hasOwnProperty"%string = None →
        register key (exec ops) = (exec ops, [], Normal tt)))
  ∧ (key ∈ readied ops → ready key (exec ops) = (exec ops, [], Normal tt))
  ∧ (registers (exec ops) !! key = Some true →
     ∀ more,
       registers (exec (ops ++ more)) !! key = Some true
       ∧ registers (exec (ops ++ more ++ [OpRegister key])) !! key = Some true).
Proof.
  split_and!.
  - intros Hreg. destruct (register_again ops key Hreg) as [Hstate Heffects].
    split_and!; [done | done |]. intros Hnone.
    rewrite register_eq, Hnone in Hstate |- *.
    unfold state_of in Hstate; cbn [fst] in Hstate. by rewrite Hstate.
  - apply ready_again.
  - intros Htrue more. split.
    + rewrite exec_app. by apply flag_true_run.
    + rewrite app_assoc, !exec_app. by apply flag_true_run, flag_true_run.
Qed.

End QueueAndGate.

(** ** Subscriptions *)

Section Subscriptions.

Context {Value : Type}.
Implicit Types (s : Bus Value) (op : Op (Value := Value))
  (ops : list (Op (Value := Value))) (event key : string) (payload : Value)
  (callback : Callback Value).

Lemma subscribers_step op s :
  subscribers (state_of (step op s)) =
  match op with
  | OpSubscribe event callback =>
      JsMap.set event
        (JsMap.set (toString callback) callback (allSubscribersFor event s))
        (subscribers s)
  | _ => subscribers s
  end.
Proof.
  destruct op as [event callback|event payload|key|key]; simpl.
  - by rewrite subscribe_eq.
  - rewrite publish_eq. by destruct (gate_open s).
  - rewrite ?register_effects, register_state.
    destruct (registers s !! "hasOwnProperty"%string); [done|].
    by destruct (registers s !! key).
  - rewrite ready_eq. cbv zeta. by destruct (_ && _).
Qed.

Lemma allSubscribersFor_subscribe event callback s :
  allSubscribersFor event (state_of (subscribe event callback s)) =
  JsMap.set (toString callback) callback (allSubscribersFor event s).
Proof.
  rewrite subscribe_eq. unfold state_of, allSubscribersFor at 1; simpl.
  by rewrite get_set_eq.
Qed.

Lemma subscriber_kept_step op event sub s :
  sub ∈ JsMap.keys (allSubscribersFor event s) →
  sub ∈ JsMap.keys (allSubscribersFor event (state_of (step op s))).
Proof.
  intros Hin. unfold allSubscribersFor at 1. rewrite subscribers_step.
  destruct op as [event' callback|event' payload|key|key]; try done.
  destruct (decide (event' = event)) as [->|Hne].
  - rewrite get_set_eq. simpl.
    destruct (decide (sub ∈ JsMap.keys
      (JsMap.set (toString callback) callback (allSubscribersFor event s))))
      as [|Hnot]; [done|].
    exfalso. apply Hnot.
    destruct (decide (toString callback ∈ JsMap.keys (allSubscribersFor event s))).
    + by rewrite keys_set_present.
    + rewrite keys_set_absent by done. apply elem_of_app. by left.
  - by rewrite get_set_ne.
Qed.

Lemma subscriber_kept_run ops event sub s :
  sub ∈ JsMap.keys (allSubscribersFor event s) →
  sub ∈ JsMap.keys (allSubscribersFor event (state_of (run ops s))).
Proof.
  revert s. induction ops as [|op ops IH]; intros s Hin; [done|].
  rewrite state_run_cons. by apply IH, subscriber_kept_step.
Qed.

Lemma count_in_NoDup (sub : string) (l : list string) (payload : Value) :
  NoDup l → sub ∈ l →
  length (filter (fun c : string * Value => c.1 = sub)
            ((fun k => (k, payload)) <$> l)) = 1.
Proof.
  induction l as [|k l IH]; [by intros _ ?%elem_of_nil|].
  rewrite NoDup_cons. intros [Hk Hnd] Hin. rewrite fmap_cons.
  destruct (decide (k = sub)) as [->|Hne].
  - rewrite filter_cons_True by done. simpl. f_equal.
    clear IH Hin Hnd. induction l as [|k' l IH]; [done|].
    apply not_elem_of_cons in Hk as [Hne Hk]. rewrite fmap_cons.
    rewrite filter_cons_False by (simpl; congruence). by apply IH.
  - rewrite filter_cons_False by done. apply IH; [done|].
    apply elem_of_cons in Hin as [->|]; done.
Qed.

(** C6. When no [register] call was made, [publish] delivers at once to
    the current subscribers of the event, one invocation each, and leaves
    the stores as they were, with nothing in the queue. *)
Theorem publish_before_any_register ops event payload :
  registered ops = [] →
  publish event payload (exec ops) =
    (exec ops,
     deliveries event payload (allSubscribersFor event (exec ops)),
     Normal tt)
  ∧ calls_of event (effects_of (publish event payload (exec ops))) =
      (fun sub => (sub, payload)) <$>
        JsMap.keys (allSubscribersFor event (exec ops))
  ∧ waitForReadyQueue (state_of (publish event payload (exec ops))) = [].
Proof.
  intros Hnone.
  assert (gate_open (exec ops) = true) as Hopen.
  { by apply gate_open_unregistered. }
  rewrite publish_eq, Hopen. split_and!; [done | apply calls_of_deliveries |].
  unfold state_of; simpl.
  by destruct (well_formed_exec ops) as (_ & _ & _ & ->).
Qed.

End Subscriptions.

(** ** Fault isolation *)

Section FaultIsolation.

Context {Value : Type}.
Implicit Types (s : Bus Value) (op : Op (Value := Value))
  (ops : list (Op (Value := Value))) (event key : string) (payload : Value)
  (callback : Callback Value).

Lemma deliveries_app event payload (l1 l2 : JsMap.t (Callback Value)) :
  deliveries event payload (l1 ++ l2) =
  deliveries event payload l1 ++ deliveries event payload l2.
Proof. unfold deliveries. apply flat_map_app. Qed.

Lemma deliver_to_throwing event payload sub callback error :
  call callback payload = Throws error →
  ∃ args, deliver_to event payload (sub, callback) =
          [Invoke event sub payload; ConsoleError args].
Proof.
  intros Hthrow. unfold deliver_to. simpl. rewrite Hthrow.
  destruct error as [message stack|v]; eauto.
Qed.

(** Without the [try]/[catch] of [publishEvent], a throwing callback would
    end the iteration: the model does propagate exceptions. *)
Lemma forEach_unguarded_stops event payload sub callback error
    (rest : JsMap.t (Callback Value)) s :
  call callback payload = Throws error →
  forEach (fun callback subscriber => invoke event subscriber callback payload)
    ((sub, callback) :: rest) s
  = (s, [Invoke event sub payload], Abrupt error).
Proof.
  intros Hthrow. cbn [forEach]. unfold bind, invoke, emit, throw, bind.
  by rewrite Hthrow.
Qed.

(** C4. When a subscriber of [event] throws on [payload] (an [Error] or
    any other value), [publishEvent] logs it and goes on: the subscribers
    stored after it are invoked as well, every subscriber is invoked once,
    and [publishEvent], [publish] and [ready] complete normally; in a
    flush, every pending kind is still delivered to all its subscribers. *)
Theorem throwing_callback_is_isolated ops event payload sub callback error
    (before after : JsMap.t (Callback Value)) :
  allSubscribersFor event (exec ops) = before ++ (sub, callback) :: after →
  call callback payload = Throws error →
  (∃ args,
     effects_of (publishEvent event payload (exec ops)) =
     deliveries event payload before
     ++ Invoke event sub payload :: ConsoleError args
        :: deliveries event payload after)
  ∧ calls_of event (effects_of (publishEvent event payload (exec ops))) =
      (fun k => (k, payload)) <$>
        JsMap.keys (allSubscribersFor event (exec ops))
  ∧ completion_of (publishEvent event payload (exec ops)) = Normal tt
  ∧ completion_of (publish event payload (exec ops)) = Normal tt
  ∧ ∀ key,
      completion_of (ready key (exec ops)) = Normal tt
      ∧ ∀ event' payload',
          gate_open (state_of (ready key (exec ops))) = true →
          JsMap.get event' (waitForReadyQueue (exec ops)) = Some payload' →
          calls_of event' (effects_of (ready key (exec ops))) =
          (fun k => (k, payload')) <$>
            JsMap.keys (allSubscribersFor event' (exec ops)).
Proof.
  intros Hsubs Hthrow. split_and!.
  - destruct (deliver_to_throwing event payload sub callback error Hthrow)
      as [args Hargs].
    exists args. rewrite publishEvent_eq. unfold effects_of; cbn [fst snd].
    rewrite Hsubs, deliveries_app. f_equal.
    unfold deliveries at 1. cbn [flat_map]. by rewrite Hargs.
  - rewrite publishEvent_eq. apply calls_of_deliveries.
  - by rewrite publishEvent_eq.
  - apply publish_normal.
  - intros key. split; [apply ready_normal|].
    intros event' payload' Hopen Hpending.
    rewrite (ready_opening _ _ Hopen). unfold effects_of; cbn [fst snd].
    rewrite calls_of_flush, Hpending; [done|].
    by destruct (well_formed_exec ops) as (_ & _ & ? & _).
Qed.

End FaultIsolation.

(** ** The deferred queue while the gate is closed *)

Section ClosedPeriods.

Context {Value : Type}.
Implicit Types (s : Bus Value) (op : Op (Value := Value))
  (ops : list (Op (Value := Value))) (event key : string) (payload : Value)
  (pubs : list (string * Value)) (q : JsMap.t Value).

Lemma gate_open_publish event payload s :
  gate_open (state_of (publish event payload s)) = gate_open s.
Proof.
  unfold gate_open.
  by rewrite (registers_step (OpPublish event payload) s : registers
    (state_of (publish event payload s)) = _).
Qed.

(** A call after which the gate is closed delivers nothing, and only a
    [publish] touches the queue. *)
Lemma closed_step op s :
  gate_open (state_of (step op s)) = false →
  effects_of (step op s) = []
  ∧ waitForReadyQueue (state_of (step op s)) =
      enqueue_all (published [op]) (waitForReadyQueue s).
Proof.
  destruct op as [event callback|event payload|key|key]; cbn [step].
  - intros _. by rewrite subscribe_eq.
  - rewrite gate_open_publish. intros Hc. by rewrite publish_eq, Hc.
  - intros _. rewrite register_effects, register_state.
    destruct (registers s !! "hasOwnProperty"%string); [done|].
    by destruct (registers s !! key).
  - intros Hc. by rewrite (ready_closed _ _ Hc).
Qed.

Lemma enqueue_all_app pubs1 pubs2 q :
  enqueue_all (pubs1 ++ pubs2) q = enqueue_all pubs2 (enqueue_all pubs1 q).
Proof. apply fold_left_app. Qed.

Lemma closed_run ops s :
  closed_throughout ops s = true →
  effects_of (run ops s) = []
  ∧ waitForReadyQueue (state_of (run ops s)) =
      enqueue_all (published ops) (waitForReadyQueue s).
Proof.
  revert s. induction ops as [|op ops IH]; intros s; [done|].
  cbn [closed_throughout]. intros [Hc Hrest]%andb_true_iff.
  apply negb_true_iff in Hc.
  destruct (closed_step op s Hc) as [Heff Hq].
  destruct (IH _ Hrest) as [Heff' Hq'].
  rewrite effects_run_cons, state_run_cons, Heff, Heff', Hq', Hq.
  split; [done|].
  change (op :: ops) with ([op] ++ ops).
  by rewrite published_app, enqueue_all_app.
Qed.

Lemma closed_throughout_app ops1 ops2 s :
  closed_throughout (ops1 ++ ops2) s =
  closed_throughout ops1 s && closed_throughout ops2 (state_of (run ops1 s)).
Proof.
  revert s. induction ops1 as [|op ops1 IH]; intros s; [done|].
  rewrite <- app_comm_cons. cbn [closed_throughout].
  by rewrite IH, state_run_cons, andb_assoc.
Qed.

Lemma get_enqueue_all event pubs q :
  JsMap.get event (enqueue_all pubs q) =
  match latest_payload event pubs with
  | Some payload => Some payload
  | None => JsMap.get event q
  end.
Proof.
  revert q. induction pubs as [|[event' payload] pubs IH]; intros q; [done|].
  cbn [enqueue_all fold_left latest_payload fst snd].
  fold (enqueue_all pubs (JsMap.set event' payload q)). rewrite IH.
  destruct (latest_payload event pubs); [done|].
  destruct (decide (event = event')) as [->|Hne].
  - apply get_set_eq.
  - by apply get_set_ne.
Qed.

Lemma latest_payload_app event pubs1 pubs2 :
  latest_payload event (pubs1 ++ pubs2) =
  match latest_payload event pubs2 with
  | Some payload => Some payload
  | None => latest_payload event pubs1
  end.
Proof.
  induction pubs1 as [|[event' payload] pubs1 IH]; simpl.
  - by destruct (latest_payload event pubs2).
  - rewrite IH. by destruct (latest_payload event pubs2).
Qed.

Lemma latest_payload_no_publish event ops :
  no_publish_of event ops = true → latest_payload event (published ops) = None.
Proof.
  unfold no_publish_of. induction (published ops) as [|[event' payload] pubs IH];
    [done|].
  cbn [forallb latest_payload fst]. intros [Hne Hrest]%andb_true_iff.
  rewrite (IH Hrest). apply negb_true_iff, bool_decide_eq_false in Hne.
  rewrite decide_False; [done | congruence].
Qed.

Lemma subscribed_in_run ops event (callback : Callback Value) s :
  OpSubscribe event callback ∈ ops →
  toString callback ∈ JsMap.keys (allSubscribersFor event (state_of (run ops s))).
Proof.
  revert s. induction ops as [|op ops IH]; intros s; [by intros ?%elem_of_nil|].
  rewrite state_run_cons. intros [<-|Hin]%elem_of_cons; [|by apply IH].
  apply subscriber_kept_run. cbn [step]. rewrite allSubscribersFor_subscribe.
  eapply get_Some_keys, get_set_eq.
Qed.

(** The heart of deferred delivery: after a run during which the gate
    stays closed, the [ready] call that opens the gate delivers, for each
    kind, the payload of its latest publish to every subscriber, once. *)
Lemma closed_then_flush ops event payload key s :
  well_formed s →
  closed_throughout ops s = true →
  latest_payload event (published ops) = Some payload →
  gate_open (state_of (ready key (state_of (run ops s)))) = true →
  effects_of (run ops s) = []
  ∧ calls_of event (effects_of (ready key (state_of (run ops s)))) =
      (fun sub => (sub, payload)) <$>
        JsMap.keys (allSubscribersFor event (state_of (run ops s)))
  ∧ NoDup (JsMap.keys (allSubscribersFor event (state_of (run ops s))))
  ∧ waitForReadyQueue (state_of (ready key (state_of (run ops s)))) = [].
Proof.
  intros Hwf Hclosed Hlatest Hopen.
  destruct (closed_run ops s Hclosed) as [Heff Hq].
  pose proof (well_formed_run ops s Hwf) as Hwf'.
  rewrite (ready_opening _ _ Hopen). unfold effects_of at 2; cbn [fst snd].
  split_and!; [done | | by apply allSubscribersFor_NoDup | done].
  rewrite calls_of_flush by (by destruct Hwf' as (_ & _ & ? & _)).
  by rewrite Hq, get_enqueue_all, Hlatest.
Qed.

End ClosedPeriods.

(** ** Deferred delivery *)

Section DeferredDelivery.

Context {Value : Type}.
Implicit Types (s : Bus Value) (op : Op (Value := Value))
  (ops : list (Op (Value := Value))) (event key : string) (payload : Value)
  (pubs : list (string * Value)) (q : JsMap.t Value).

(** C2. [publish(event, payload)] is called while the gate is closed; the
    gate stays closed during the calls [mid], none of which publishes
    [event] again; then [ready key] opens the gate.  Nothing is delivered
    before that [ready] call, and that call invokes every subscriber of
    [event] present at that time, those subscribed during [mid] included,
    exactly once with [payload]; afterwards nothing is pending. *)
Theorem deferred_publish_delivered_once (pre mid : list (Op (Value := Value)))
    event payload key :
  gate_open (exec pre) = false →
  closed_throughout mid (exec (pre ++ [OpPublish event payload])) = true →
  no_publish_of event mid = true →
  gate_open (exec (pre ++ OpPublish event payload :: mid ++ [OpReady key]))
    = true →
  effects_of (run (OpPublish event payload :: mid) (exec pre)) = []
  ∧ calls_of event
      (effects_of (ready key (exec (pre ++ OpPublish event payload :: mid)))) =
    (fun sub => (sub, payload)) <$>
      JsMap.keys
        (allSubscribersFor event (exec (pre ++ OpPublish event payload :: mid)))
  ∧ NoDup (JsMap.keys
      (allSubscribersFor event (exec (pre ++ OpPublish event payload :: mid))))
  ∧ (∀ callback : Callback Value,
       OpSubscribe event callback ∈ mid →
       toString callback ∈ JsMap.keys
         (allSubscribersFor event (exec (pre ++ OpPublish event payload :: mid))))
  ∧ waitForReadyQueue
      (exec (pre ++ OpPublish event payload :: mid ++ [OpReady key])) = [].
Proof.
  intros Hclosed Hmid Hnone Hopen.
  assert (closed_throughout (OpPublish event payload :: mid) (exec pre) = true)
    as Hall.
  { cbn [closed_throughout step]. rewrite gate_open_publish, Hclosed.
    rewrite exec_snoc in Hmid. exact Hmid. }
  assert (latest_payload event (published (OpPublish event payload :: mid))
          = Some payload) as Hlatest.
  { cbn [published latest_payload]. rewrite latest_payload_no_publish by done.
    by rewrite decide_True. }
  rewrite (app_comm_cons mid), app_assoc, exec_snoc in Hopen.
  rewrite (app_comm_cons mid), app_assoc, exec_snoc.
  rewrite !exec_app in *.
  destruct (closed_then_flush _ event payload key (exec pre)
              (well_formed_exec pre) Hall Hlatest Hopen)
    as (Heff & Hcalls & Hnd & Hq).
  split_and!; try done.
  intros callback Hin. apply subscribed_in_run.
  by apply list_elem_of_further.
Qed.

(** C3. [publish(event, first)] and later [publish(event, second)] are
    called while the gate is closed and stays closed, [second] being the
    last publish of [event] before [ready key] opens the gate.  Over the
    whole scenario the invocations for [event] are exactly one per
    subscriber, each with [second]: [first] is delivered to nobody. *)
Theorem second_publish_wins (pre mid1 mid2 : list (Op (Value := Value)))
    event (first second : Value) key :
  gate_open (exec pre) = false →
  closed_throughout (mid1 ++ OpPublish event second :: mid2)
    (exec (pre ++ [OpPublish event first])) = true →
  no_publish_of event mid2 = true →
  gate_open
    (exec (pre ++ (OpPublish event first :: mid1
                   ++ OpPublish event second :: mid2) ++ [OpReady key]))
    = true →
  calls_of event
    (effects_of
       (run ((OpPublish event first :: mid1 ++ OpPublish event second :: mid2)
             ++ [OpReady key]) (exec pre))) =
  (fun sub => (sub, second)) <$>
    JsMap.keys
      (allSubscribersFor event
         (exec (pre ++ OpPublish event first :: mid1
                ++ OpPublish event second :: mid2)))
  ∧ ∀ sub delivered,
      (sub, delivered) ∈
        calls_of event
          (effects_of
             (run ((OpPublish event first :: mid1
                    ++ OpPublish event second :: mid2) ++ [OpReady key])
                (exec pre))) →
      delivered = second.
Proof.
  intros Hclosed Hmid Hnone Hopen.
  set (ops := OpPublish event first :: mid1 ++ OpPublish event second :: mid2)
    in *.
  assert (closed_throughout ops (exec pre) = true) as Hall.
  { unfold ops. cbn [closed_throughout step].
    rewrite gate_open_publish, Hclosed.
    rewrite exec_snoc in Hmid. exact Hmid. }
  assert (latest_payload event (published ops) = Some second) as Hlatest.
  { unfold ops. rewrite app_comm_cons, published_app, latest_payload_app.
    cbn [published latest_payload]. rewrite latest_payload_no_publish by done.
    by rewrite decide_True. }
  rewrite app_assoc, exec_snoc, exec_app in Hopen. cbn [step] in Hopen.
  destruct (closed_then_flush _ event second key (exec pre)
              (well_formed_exec pre) Hall Hlatest Hopen)
    as (Heff & Hcalls & Hnd & Hq).
  assert (calls_of event (effects_of (run (ops ++ [OpReady key]) (exec pre))) =
          (fun sub => (sub, second)) <$>
            JsMap.keys (allSubscribersFor event (exec (pre ++ ops)))) as Hgoal.
  { rewrite effects_run_app, effects_run_one, Heff, app_nil_l, exec_app.
    exact Hcalls. }
  split; [exact Hgoal|].
  intros sub delivered. rewrite Hgoal.
  intros (k & [= _ ->] & _)%list_elem_of_fmap. reflexivity.
Qed.

Lemma subscribe_absorbs event (cb cb' : Callback Value) s :
  toString cb = toString cb' →
  state_of (subscribe event cb' (state_of (subscribe event cb s))) =
  state_of (subscribe event cb' s).
Proof.
  intros Htext.
  rewrite (subscribe_eq event cb' (state_of _)), allSubscribersFor_subscribe.
  rewrite !subscribe_eq. unfold state_of, set_subscribers; simpl.
  by rewrite Htext, !set_set.
Qed.

(** C7, as the code has it.  Two callbacks with the same source text,
    subscribed under the same kind, share one slot, which holds the later
    one: the two subscriptions leave the stores as the later one alone
    does (so subscribing the very same callback twice is like subscribing
    it once), with the subscriber keys of a single subscription.  Every
    later [publish] of the kind invokes that slot exactly once: at once
    when the gate is open, and in the flush of the [ready] call that opens
    the gate when it is closed. *)
Theorem subscribe_same_callback_once ops more event (cb cb' : Callback Value)
    payload :
  toString cb = toString cb' →
  exec (ops ++ [OpSubscribe event cb; OpSubscribe event cb']) =
    exec (ops ++ [OpSubscribe event cb'])
  ∧ JsMap.keys (allSubscribersFor event
      (exec (ops ++ [OpSubscribe event cb; OpSubscribe event cb']))) =
    JsMap.keys (allSubscribersFor event (exec (ops ++ [OpSubscribe event cb])))
  ∧ (gate_open
       (exec ((ops ++ [OpSubscribe event cb; OpSubscribe event cb']) ++ more))
     = true →
     length (filter (fun c : string * Value => c.1 = toString cb)
       (calls_of event (effects_of (publish event payload
          (exec ((ops ++ [OpSubscribe event cb; OpSubscribe event cb'])
                 ++ more))))))
     = 1)
  ∧ (∀ mid key,
       gate_open
         (exec ((ops ++ [OpSubscribe event cb; OpSubscribe event cb']) ++ more))
       = false →
       closed_throughout mid
         (exec (((ops ++ [OpSubscribe event cb; OpSubscribe event cb']) ++ more)
                ++ [OpPublish event payload])) = true →
       no_publish_of event mid = true →
       gate_open
         (exec (((ops ++ [OpSubscribe event cb; OpSubscribe event cb']) ++ more)
                ++ (OpPublish event payload :: mid) ++ [OpReady key])) = true →
       length (filter (fun c : string * Value => c.1 = toString cb)
         (calls_of event (effects_of (run
            ((OpPublish event payload :: mid) ++ [OpReady key])
            (exec ((ops ++ [OpSubscribe event cb; OpSubscribe event cb'])
                   ++ more))))))
       = 1).
Proof.
  intros Htext.
  assert (∀ later, toString cb ∈ JsMap.keys (allSubscribersFor event
            (exec ((ops ++ [OpSubscribe event cb; OpSubscribe event cb'])
                   ++ later)))) as Hin.
  { intros later. rewrite exec_app. apply subscriber_kept_run.
    rewrite (exec_app ops [_; _]), state_run_cons, state_run_one. cbn [step].
    rewrite allSubscribersFor_subscribe, Htext.
    eapply get_Some_keys, get_set_eq. }
  split_and!.
  - rewrite (exec_app ops [_; _]), state_run_cons, state_run_one, exec_snoc.
    cbn [step]. by apply subscribe_absorbs.
  - rewrite (exec_app ops [_; _]), state_run_cons, state_run_one, <- exec_snoc.
    cbn [step]. rewrite allSubscribersFor_subscribe.
    apply keys_set_present. rewrite <- Htext, exec_snoc. cbn [step].
    rewrite allSubscribersFor_subscribe. eapply get_Some_keys, get_set_eq.
  - intros Hopen. rewrite publish_eq, Hopen. unfold effects_of; cbn [fst snd].
    rewrite calls_of_deliveries. apply count_in_NoDup; [|apply (Hin more)].
    apply allSubscribersFor_NoDup, well_formed_exec.
  - intros mid key Hclosed Hmid Hnone Hopen.
    rewrite exec_snoc in Hmid. cbn [step] in Hmid.
    rewrite app_assoc, exec_snoc, exec_app in Hopen. cbn [step] in Hopen.
    set (s := exec ((ops ++ [OpSubscribe event cb; OpSubscribe event cb'])
                    ++ more)) in *.
    assert (closed_throughout (OpPublish event payload :: mid) s = true) as Hall.
    { cbn [closed_throughout step]. by rewrite gate_open_publish, Hclosed. }
    assert (latest_payload event (published (OpPublish event payload :: mid))
            = Some payload) as Hlatest.
    { cbn [published latest_payload].
      rewrite latest_payload_no_publish by done. by rewrite decide_True. }
    destruct (closed_then_flush _ event payload key s
                (well_formed_exec _) Hall Hlatest Hopen)
      as (Heff & Hcalls & Hnd & _).
    rewrite effects_run_app, effects_run_one, Heff, app_nil_l. cbn [step].
    rewrite Hcalls. apply count_in_NoDup; [done|].
    unfold s. rewrite <- exec_app, <- app_assoc. apply Hin.
Qed.

End DeferredDelivery.

(** ** The queue refines the specification's [drainInOrder] *)

Section DrainOrder.

Context {Value : Type}.
Implicit Types (s : Bus Value) (op : Op (Value := Value))
  (ops : list (Op (Value := Value))) (event key : string) (payload : Value)
  (pubs : list (string * Value)) (q : JsMap.t Value).

Lemma keys_enqueue_all pubs q :
  JsMap.keys (enqueue_all pubs q) =
  JsMap.keys q ++ filter (fun event => event ∉ JsMap.keys q) (first_enqueued pubs).
Proof.
  revert q. induction pubs as [|[event payload] pubs IH]; intros q.
  - simpl. by rewrite app_nil_r.
  - cbn [enqueue_all fold_left first_enqueued fst snd].
    fold (enqueue_all pubs (JsMap.set event payload q)). rewrite IH.
    destruct (decide (event ∈ JsMap.keys q)) as [Hin|Hnot].
    + rewrite keys_set_present by done. f_equal.
      rewrite filter_cons_False by (by intros ?).
      rewrite list_filter_filter_l; [done|]. intros x Hx ->. done.
    + rewrite keys_set_absent by done. rewrite <- app_assoc. f_equal.
      rewrite filter_cons_True by done. simpl. f_equal.
      rewrite list_filter_filter. apply list_filter_iff. intros x.
      rewrite elem_of_app, list_elem_of_singleton. tauto.
Qed.

Lemma NoDup_enqueue_all pubs q :
  NoDup (JsMap.keys q) → NoDup (JsMap.keys (enqueue_all pubs q)).
Proof.
  revert q. induction pubs as [|[event payload] pubs IH]; intros q Hnd; [done|].
  apply IH. by apply NoDup_keys_set.
Qed.

Lemma omap_agree {A B : Type} (f g : A → option B) (l : list A) :
  (∀ x, x ∈ l → f x = g x) → omap f l = omap g l.
Proof.
  induction l as [|x l IH]; intros H; [done|]. csimpl.
  rewrite (H x) by apply list_elem_of_here.
  rewrite IH; [done|]. intros y Hy. apply H. by apply list_elem_of_further.
Qed.

(** A map without duplicate keys is the list of its keys, each with the
    value [get] finds. *)
Lemma entries_by_key q :
  NoDup (JsMap.keys q) →
  q = omap (fun k => (fun v => (k, v)) <$> JsMap.get k q) (JsMap.keys q).
Proof.
  unfold JsMap.keys. induction q as [|[k v] q IH]; [done|].
  rewrite fmap_cons, NoDup_cons. cbn [fst]. intros [Hk Hnd]. csimpl.
  rewrite decide_True by done. csimpl. f_equal.
  rewrite (IH Hnd) at 1. apply omap_agree. intros k' Hk'.
  rewrite decide_False; [done|]. intros ->. done.
Qed.

Lemma filter_not_in_nil (l : list string) :
  filter (fun event => event ∉ JsMap.keys (@nil (string * Value))) l = l.
Proof.
  induction l as [|x l IH]; [done|].
  rewrite filter_cons_True by apply not_elem_of_nil. by rewrite IH.
Qed.

(** The queue built by the code's [set] calls is the list the
    specification describes. *)
Lemma enqueue_all_drainInOrder pubs : enqueue_all pubs [] = drainInOrder pubs.
Proof.
  rewrite (entries_by_key (enqueue_all pubs []))
    by apply NoDup_enqueue_all, NoDup_nil_2.
  rewrite keys_enqueue_all. simpl. rewrite filter_not_in_nil.
  unfold drainInOrder. apply omap_agree. intros event _.
  rewrite get_enqueue_all. by destruct (latest_payload event pubs).
Qed.

(** C8. From a moment at which the gate is open, the gate is closed after
    each of the calls [mid], and then [ready key] opens it.  That [ready]
    call delivers the pending pairs in the order in which their kinds were
    first published during [mid], each kind with its latest payload, and
    leaves the queue empty. *)
Theorem flush_in_first_enqueue_order (pre mid : list (Op (Value := Value))) key :
  gate_open (exec pre) = true →
  closed_throughout mid (exec pre) = true →
  gate_open (exec (pre ++ mid ++ [OpReady key])) = true →
  waitForReadyQueue (exec (pre ++ mid)) = drainInOrder (published mid)
  ∧ effects_of (ready key (exec (pre ++ mid))) =
      flush_effects (exec (pre ++ mid)) (drainInOrder (published mid))
  ∧ waitForReadyQueue (exec (pre ++ mid ++ [OpReady key])) = [].
Proof.
  intros Hopen Hclosed Hreopen.
  destruct (closed_run mid (exec pre) Hclosed) as [_ Hq].
  destruct (well_formed_exec pre) as (_ & _ & _ & Hempty).
  rewrite (Hempty Hopen), enqueue_all_drainInOrder, <- exec_app in Hq.
  rewrite app_assoc, exec_snoc in Hreopen |- *. cbn [step] in Hreopen |- *.
  rewrite (ready_opening _ _ Hreopen). unfold effects_of, state_of; cbn [fst snd].
  by rewrite Hq.
Qed.

End DrainOrder.

(** ** Transitions of the gate *)

Section GateTransitions.

Context {Value : Type}.
Implicit Types (s : Bus Value) (op : Op (Value := Value))
  (ops : list (Op (Value := Value))) (event key : string) (payload : Value).

(** Only a [register] call that stores a new flag closes an open gate:
    the name has no flag yet, is not [__proto__], and no flag is stored
    under [hasOwnProperty]. *)
Lemma gate_closes_by_new_register op s :
  gate_open s = true → gate_open (state_of (step op s)) = false →
  ∃ key, op = OpRegister key ∧ registers s !! key = None
         ∧ key ≠ "__proto__"%string
         ∧ registers s !! "hasOwnProperty"%string = None.
Proof.
  unfold gate_open. rewrite registers_step. intros Hopen.
  destruct op as [event callback|event payload|key|key]; try congruence.
  - destruct (registers s !! "hasOwnProperty"%string) eqn:Hh; [congruence|].
    destruct (registers s !! key) eqn:Hk; [congruence|].
    destruct (decide (key = "__proto__"%string)) as [->|Hnp].
    + rewrite assign_proto. congruence.
    + intros _. by exists key.
  - by rewrite areRegistersReady_in_assign_true.
Qed.

(** Such a [register] call does close the gate. *)
Lemma new_register_closes_gate key s :
  registers s !! key = None → key ≠ "__proto__"%string →
  registers s !! "hasOwnProperty"%string = None →
  gate_open (state_of (register key s)) = false.
Proof.
  intros Hk Hnp Hh. unfold gate_open.
  rewrite (registers_step (OpRegister key) s : registers
    (state_of (register key s)) = _), Hh, Hk.
  by apply areRegistersReady_in_assign_false.
Qed.

(** Only a [ready] call opens a closed gate. *)
Lemma gate_opens_by_ready op s :
  gate_open s = false → gate_open (state_of (step op s)) = true →
  ∃ key, op = OpReady key.
Proof.
  unfold gate_open. rewrite registers_step. intros Hclosed.
  destruct op as [event callback|event payload|key|key]; try congruence.
  - destruct (registers s !! "hasOwnProperty"%string); [congruence|].
    destruct (registers s !! key) eqn:Hk; [congruence|].
    destruct (decide (key = "__proto__"%string)) as [->|Hnp].
    + rewrite assign_proto. congruence.
    + by rewrite areRegistersReady_in_assign_false.
  - eauto.
Qed.

(** C5, as the code has it.  An open gate is closed again only by a
    [register] call for a name that has no flag yet (a name never
    registered and never readied), and every such call closes it when the
    name is not [__proto__] and no flag is stored under [hasOwnProperty];
    a closed gate is opened only by a [ready] call, and every such call
    passes each pending pair to [publishEvent] once, in queue order, and
    then clears the queue. *)
Theorem gate_transitions ops op :
  (gate_open (exec ops) = true → gate_open (exec (ops ++ [op])) = false →
   ∃ key, op = OpRegister key ∧ registers (exec ops) !! key = None
          ∧ (key ∉ registered ops) ∧ (key ∉ readied ops))
  ∧ (∀ key, op = OpRegister key →
       registers (exec ops) !! key = None → key ≠ "__proto__"%string →
       registers (exec ops) !! "hasOwnProperty"%string = None →
       gate_open (exec (ops ++ [op])) = false)
  ∧ (gate_open (exec ops) = false → gate_open (exec (ops ++ [op])) = true →
     ∃ key, op = OpReady key
       ∧ effects_of (step op (exec ops)) =
           flush_effects (exec ops) (waitForReadyQueue (exec ops))
       ∧ NoDup (JsMap.keys (waitForReadyQueue (exec ops)))
       ∧ waitForReadyQueue (exec (ops ++ [op])) = []).
Proof.
  rewrite exec_snoc. split_and!.
  - intros Hopen Hclosed.
    destruct (gate_closes_by_new_register op _ Hopen Hclosed)
      as (key & -> & Hk & Hnp & Hh).
    exists key. split_and!; [done | done | |].
    + intros Hin. destruct (registered_stored ops key Hh Hin Hnp) as [flag Hf].
      congruence.
    + intros Hin. rewrite (flag_readied ops key Hin Hnp) in Hk. done.
  - intros key -> Hk Hnp Hh. by apply new_register_closes_gate.
  - intros Hclosed Hopen.
    destruct (gate_opens_by_ready op _ Hclosed Hopen) as (key & ->).
    exists key. cbn [step] in *. rewrite (ready_opening _ _ Hopen).
    split_and!; try done.
    by destruct (well_formed_exec ops) as (_ & _ & ? & _).
Qed.

End GateTransitions.

(** ** The subscribers of a kind along a run *)

Section SubscribersAlongRuns.

Context {Value : Type}.
Implicit Types (s : Bus Value) (op : Op (Value := Value))
  (ops : list (Op (Value := Value))) (event key : string) (payload : Value)
  (callback : Callback Value) (callbacks : list (Callback Value)).

Lemma subscribed_app event ops1 ops2 :
  subscribed event (ops1 ++ ops2) = subscribed event ops1 ++ subscribed event ops2.
Proof.
  induction ops1 as [|[event' callback| | |] ops1 IH]; simpl; try done.
  destruct (decide (event' = event)); simpl; by rewrite IH.
Qed.

Lemma allSubscribersFor_step op event s :
  allSubscribersFor event (state_of (step op s)) =
  enqueue_all (slot <$> subscribed event [op]) (allSubscribersFor event s).
Proof.
  unfold allSubscribersFor at 1. rewrite subscribers_step.
  destruct op as [event' callback|event' payload|key|key]; try done.
  simpl. destruct (decide (event' = event)) as [->|Hne].
  - by rewrite get_set_eq.
  - by rewrite get_set_ne.
Qed.

(** The subscribers of a kind are built by one [set] per [subscribe] call
    of that kind, in call order. *)
Lemma allSubscribersFor_exec event ops :
  allSubscribersFor event (exec ops) =
  enqueue_all (slot <$> subscribed event ops) [].
Proof.
  induction ops as [|op ops IH] using rev_ind; [done|].
  rewrite exec_snoc, allSubscribersFor_step, IH, subscribed_app, fmap_app.
  by rewrite enqueue_all_app.
Qed.

Lemma first_enqueued_slots callbacks :
  first_enqueued (slot <$> callbacks) = first_occurrences (toString <$> callbacks).
Proof.
  induction callbacks as [|callback callbacks IH]; [done|].
  rewrite !fmap_cons. unfold slot at 1.
  cbn [first_enqueued first_occurrences]. by rewrite IH.
Qed.

Lemma latest_payload_slots text callbacks :
  latest_payload text (slot <$> callbacks) =
  last (filter (fun callback => toString callback = text) callbacks).
Proof.
  induction callbacks as [|callback callbacks IH]; [done|].
  rewrite fmap_cons. cbn [latest_payload slot]. rewrite IH.
  destruct (decide (toString callback = text)) as [Heq|Hne].
  - rewrite filter_cons_True by done.
    destruct (filter _ callbacks) as [|c l] eqn:Hf; simpl.
    + by rewrite decide_True.
    + rewrite last_cons. by destruct (last l).
  - rewrite filter_cons_False by done.
    destruct (last _); [done|]. rewrite decide_False; [done | congruence].
Qed.

(** X1. The subscribers of a kind are kept, and so invoked, in the order
    in which their source texts were first subscribed under that kind. *)
Theorem subscribers_in_first_subscription_order event ops payload :
  JsMap.keys (allSubscribersFor event (exec ops)) =
    first_occurrences (toString <$> subscribed event ops)
  ∧ calls_of event (effects_of (publishEvent event payload (exec ops))) =
      (fun sub => (sub, payload)) <$>
        first_occurrences (toString <$> subscribed event ops).
Proof.
  assert (JsMap.keys (allSubscribersFor event (exec ops)) =
          first_occurrences (toString <$> subscribed event ops)) as Hkeys.
  { rewrite allSubscribersFor_exec, keys_enqueue_all. simpl.
    rewrite (filter_not_in_nil (Value := Callback Value)).
    apply first_enqueued_slots. }
  split; [done|].
  rewrite publishEvent_eq. unfold effects_of; cbn [fst snd].
  by rewrite calls_of_deliveries, Hkeys.
Qed.

(** X2. Under a source text, the bus keeps the callback of the latest
    [subscribe] call of that kind with that text: an earlier callback with
    the same text is replaced, not kept beside it. *)
Theorem latest_callback_with_a_text_is_kept event ops text :
  JsMap.get text (allSubscribersFor event (exec ops)) =
  last (filter (fun callback => toString callback = text)
          (subscribed event ops)).
Proof.
  rewrite allSubscribersFor_exec, get_enqueue_all, latest_payload_slots.
  by destruct (last _).
Qed.

(** X3. Nothing is ever unsubscribed or unregistered: a subscriber key
    present under a kind, and a participant present in [registers], are
    still present after every continuation of the run. *)
Theorem nothing_is_removed ops more event sub key :
  (sub ∈ JsMap.keys (allSubscribersFor event (exec ops)) →
   sub ∈ JsMap.keys (allSubscribersFor event (exec (ops ++ more))))
  ∧ (is_Some (registers (exec ops) !! key) →
     is_Some (registers (exec (ops ++ more)) !! key)).
Proof.
  split.
  - intros Hin. rewrite exec_app. by apply subscriber_kept_run.
  - intros Hsome. rewrite exec_app. by apply stored_run.
Qed.

End SubscribersAlongRuns.

(** ** What a run can deliver *)

Section WhatIsDelivered.

Context {Value : Type}.
Implicit Types (s : Bus Value) (op : Op (Value := Value))
  (ops : list (Op (Value := Value))) (event key : string) (payload : Value)
  (callback : Callback Value) (q : JsMap.t Value)
  (pubs : list (string * Value)).

Lemma queue_step op s :
  waitForReadyQueue (state_of (step op s)) =
  match op with
  | OpPublish event payload =>
      if gate_open s then waitForReadyQueue s
      else JsMap.set event payload (waitForReadyQueue s)
  | OpReady key =>
      if gate_open (set_registers (assign key true) s)
         && bool_decide (0 < JsMap.size (waitForReadyQueue s))
      then []
      else waitForReadyQueue s
  | _ => waitForReadyQueue s
  end.
Proof.
  destruct op as [event callback|event payload|key|key]; simpl.
  - by rewrite subscribe_eq.
  - rewrite publish_eq. by destruct (gate_open s).
  - rewrite ?register_effects, register_state.
    destruct (registers s !! "hasOwnProperty"%string); [done|].
    by destruct (registers s !! key).
  - rewrite ready_eq. cbv zeta. by destruct (_ && _).
Qed.

Lemma elem_of_get {V : Type} (k : string) (v : V) (m : JsMap.t V) :
  NoDup (JsMap.keys m) → (k, v) ∈ m → JsMap.get k m = Some v.
Proof.
  unfold JsMap.keys. induction m as [|[k' v'] m IH]; simpl.
  - intros _ H. by apply elem_of_nil in H.
  - rewrite NoDup_cons. intros [Hk Hnd] [H|H]%elem_of_cons.
    + injection H as -> ->. by rewrite decide_True.
    + destruct (decide (k = k')) as [->|]; [|by apply IH].
      exfalso. apply Hk. apply list_elem_of_fmap. by exists (k', v).
Qed.

Lemma latest_payload_published event payload pubs :
  latest_payload event pubs = Some payload → (event, payload) ∈ pubs.
Proof.
  induction pubs as [|[event' payload'] pubs IH]; [done|].
  cbn [latest_payload]. destruct (latest_payload event pubs) as [later|].
  - intros [= ->]. apply list_elem_of_further. by apply IH.
  - destruct (decide (event = event')) as [->|]; [|done].
    intros [= ->]. apply list_elem_of_here.
Qed.

(** Whatever is pending for a kind is the payload of the latest publish
    of that kind in the run. *)
Lemma pending_latest ops event payload :
  JsMap.get event (waitForReadyQueue (exec ops)) = Some payload →
  latest_payload event (published ops) = Some payload.
Proof.
  revert payload. induction ops as [|op ops IH] using rev_ind; intros payload;
    [done|].
  rewrite exec_snoc, queue_step, published_app, latest_payload_app.
  destruct (well_formed_exec ops) as (_ & _ & _ & Hempty).
  destruct op as [event' callback|event' payload'|key|key]; simpl;
    try (intros H; by apply IH).
  - destruct (gate_open (exec ops)) eqn:Hopen.
    + by rewrite (Hempty eq_refl).
    + destruct (decide (event = event')) as [->|Hne].
      * by rewrite get_set_eq.
      * rewrite get_set_ne by done. apply IH.
  - destruct (_ && _); [done | apply IH].
Qed.

Lemma invocations_app (l1 l2 : list (Effect Value)) :
  invocations (l1 ++ l2) = invocations l1 ++ invocations l2.
Proof.
  induction l1 as [|[event sub payload|args] l1 IH]; simpl; by rewrite ?IH.
Qed.

Lemma invocations_deliveries event payload (subs : JsMap.t (Callback Value)) :
  invocations (deliveries event payload subs) =
  (fun sub => (event, sub, payload)) <$> JsMap.keys subs.
Proof.
  unfold deliveries, JsMap.keys. induction subs as [|[sub callback] subs IH];
    [done|].
  cbn [flat_map]. rewrite invocations_app, IH. unfold deliver_to. simpl.
  by destruct (call callback payload) as [|[message stack|v]].
Qed.

Lemma elem_of_invocations_flush event sub payload s q :
  (event, sub, payload) ∈ invocations (flush_effects s q) →
  (event, payload) ∈ q ∧ sub ∈ JsMap.keys (allSubscribersFor event s).
Proof.
  unfold flush_effects. induction q as [|[event' payload'] q IH].
  - by intros ?%elem_of_nil.
  - cbn [flat_map fst snd]. rewrite invocations_app, invocations_deliveries.
    intros [Hin|Hin]%elem_of_app.
    + apply list_elem_of_fmap in Hin as (sub' & [= -> -> ->] & Hsub).
      split; [apply list_elem_of_here | done].
    + destruct (IH Hin) as [Hq Hsub].
      split; [by apply list_elem_of_further | done].
Qed.

Lemma elem_of_first_occurrences (x : string) (l : list string) :
  x ∈ first_occurrences l → x ∈ l.
Proof.
  induction l as [|y l IH]; [done|]. cbn [first_occurrences].
  intros [->|Hin]%elem_of_cons; [apply list_elem_of_here|].
  apply list_elem_of_filter in Hin as [_ Hin].
  apply list_elem_of_further. by apply IH.
Qed.

Lemma elem_of_subscribed event callback ops :
  callback ∈ subscribed event ops → OpSubscribe event callback ∈ ops.
Proof.
  induction ops as [|[event' callback'| | |] ops IH]; simpl;
    try (intros H; apply list_elem_of_further; by apply IH).
  - by intros ?%elem_of_nil.
  - destruct (decide (event' = event)) as [->|].
    + intros [->|H]%elem_of_cons; [apply list_elem_of_here|].
      apply list_elem_of_further. by apply IH.
    + intros H. apply list_elem_of_further. by apply IH.
Qed.

Lemma subscriber_was_subscribed event sub ops :
  sub ∈ JsMap.keys (allSubscribersFor event (exec ops)) →
  ∃ callback, OpSubscribe event callback ∈ ops ∧ toString callback = sub.
Proof.
  rewrite allSubscribersFor_exec, keys_enqueue_all. simpl.
  rewrite (filter_not_in_nil (Value := Callback Value)), first_enqueued_slots.
  intros Hin%elem_of_first_occurrences.
  apply list_elem_of_fmap in Hin as (callback & -> & Hin).
  exists callback. split; [by apply elem_of_subscribed | done].
Qed.

Lemma elem_of_published_app_l (entry : string * Value) ops1 ops2 :
  entry ∈ published ops1 → entry ∈ published (ops1 ++ ops2).
Proof. rewrite published_app, elem_of_app. by left. Qed.

(** X4. The bus invents nothing: every callback invocation of a run is
    for a kind and payload that some [publish] call of the run gave, and
    goes to a subscriber key that some [subscribe] call of the run placed
    under that kind. *)
Theorem every_invocation_was_published_and_subscribed ops event sub payload :
  (event, sub, payload) ∈ invocations (effects_of (run ops init)) →
  (event, payload) ∈ published ops
  ∧ ∃ callback, OpSubscribe event callback ∈ ops ∧ toString callback = sub.
Proof.
  induction ops as [|op ops IH] using rev_ind; [by intros ?%elem_of_nil|].
  rewrite effects_run_app, invocations_app, effects_run_one.
  fold (exec ops). intros [Hin|Hin]%elem_of_app.
  - destruct (IH Hin) as (Hpub & callback & Hcb & Htext).
    split; [by apply elem_of_published_app_l|].
    exists callback. split; [|done]. apply elem_of_app. by left.
  - assert (∀ sub', sub' ∈ JsMap.keys (allSubscribersFor event (exec ops)) →
              ∃ callback, OpSubscribe event callback ∈ ops ++ [op]
                          ∧ toString callback = sub') as Hsubs.
    { intros sub' (callback & Hcb & Htext)%subscriber_was_subscribed.
      exists callback. split; [|done]. apply elem_of_app. by left. }
    destruct op as [event' callback|event' payload'|key|key]; cbn [step] in Hin.
    + rewrite subscribe_eq in Hin. by apply elem_of_nil in Hin.
    + rewrite publish_eq in Hin. destruct (gate_open (exec ops));
        [|by apply elem_of_nil in Hin].
      unfold effects_of in Hin; cbn [fst snd] in Hin.
      rewrite invocations_deliveries in Hin.
      apply list_elem_of_fmap in Hin as (sub' & [= -> -> ->] & Hsub).
      split; [|by apply Hsubs].
      rewrite published_app, elem_of_app. right. apply list_elem_of_here.
    + rewrite register_effects in Hin. by apply elem_of_nil in Hin.
    + rewrite ready_eq in Hin. cbv zeta in Hin.
      destruct (_ && _); [|by apply elem_of_nil in Hin].
      unfold effects_of in Hin; cbn [fst snd] in Hin.
      apply elem_of_invocations_flush in Hin as [Hq Hsub].
      split; [|by apply Hsubs].
      apply elem_of_published_app_l, latest_payload_published, pending_latest.
      apply elem_of_get; [|done].
      by destruct (well_formed_exec ops) as (_ & _ & ? & _).
Qed.

(** X7. The queue holds at most one entry per kind, and the entry of a
    kind carries the payload of the latest [publish] of that kind in the
    whole run. *)
Theorem pending_is_latest_publish ops event payload :
  JsMap.get event (waitForReadyQueue (exec ops)) = Some payload →
  latest_payload event (published ops) = Some payload
  ∧ NoDup (JsMap.keys (waitForReadyQueue (exec ops)))
  ∧ gate_open (exec ops) = false.
Proof.
  intros Hpending. split_and!.
  - by apply pending_latest.
  - by destruct (well_formed_exec ops) as (_ & _ & ? & _).
  - destruct (gate_open (exec ops)) eqn:Hopen; [|done].
    destruct (well_formed_exec ops) as (_ & _ & _ & Hempty).
    by rewrite (Hempty Hopen) in Hpending.
Qed.

End WhatIsDelivered.

(** ** What a run does not deliver *)

Section WhatIsNotDelivered.

Context {Value : Type}.
Implicit Types (s : Bus Value) (op : Op (Value := Value))
  (ops more : list (Op (Value := Value))) (event key : string)
  (payload : Value) (callback : Callback Value).

Lemma closed_while_unready key more s :
  registers s !! key = Some false → key ∉ readied more →
  closed_throughout more s = true.
Proof.
  revert s. induction more as [|op more IH]; intros s Hfalse Hnot; [done|].
  cbn [closed_throughout].
  assert (op ≠ OpReady key) as Hop.
  { intros ->. apply Hnot. apply list_elem_of_here. }
  assert (key ∉ readied more) as Hnot'.
  { intros Hin. apply Hnot. destruct op; simpl; try done.
    by apply list_elem_of_further. }
  pose proof (flag_false_step op key s Hfalse Hop) as Hfalse'.
  rewrite (IH _ Hfalse' Hnot'), andb_true_r. apply negb_true_iff.
  apply areRegistersReady_in_false. by exists key.
Qed.

(** X5. As long as the participant of a flag that is stored as not
    ready has not called [ready], nothing at all is delivered, whatever is
    subscribed and published. *)
Theorem nothing_delivered_while_a_participant_is_unready ops more key :
  registers (exec ops) !! key = Some false → key ∉ readied more →
  effects_of (run more (exec ops)) = []
  ∧ waitForReadyQueue (exec (ops ++ more)) =
      enqueue_all (published more) (waitForReadyQueue (exec ops)).
Proof.
  intros Hfalse Hnot. rewrite exec_app.
  by apply closed_run, (closed_while_unready key).
Qed.

Lemma not_pending_step op event s :
  well_formed s →
  JsMap.get event (waitForReadyQueue s) = None →
  no_publish_of event [op] = true →
  calls_of event (effects_of (step op s)) = []
  ∧ JsMap.get event (waitForReadyQueue (state_of (step op s))) = None.
Proof.
  intros (_ & _ & Hnd & _) Hnone Hop. rewrite queue_step.
  destruct op as [event' callback|event' payload|key|key]; cbn [step].
  - by rewrite subscribe_eq.
  - unfold no_publish_of in Hop. simpl in Hop. rewrite andb_true_r in Hop.
    apply negb_true_iff, bool_decide_eq_false in Hop.
    rewrite publish_eq. destruct (gate_open s).
    + split; [|done]. by apply calls_of_deliveries_other.
    + split; [done|]. by rewrite get_set_ne.
  - by rewrite register_effects.
  - rewrite ready_eq. cbv zeta. destruct (_ && _); [|done].
    split; [|done]. unfold effects_of; cbn [fst snd].
    by rewrite calls_of_flush, Hnone.
Qed.

Lemma no_publish_of_cons event op more :
  no_publish_of event (op :: more) =
  no_publish_of event [op] && no_publish_of event more.
Proof.
  unfold no_publish_of. change (op :: more) with ([op] ++ more).
  by rewrite published_app, forallb_app.
Qed.

Lemma not_pending_run more event s :
  well_formed s →
  JsMap.get event (waitForReadyQueue s) = None →
  no_publish_of event more = true →
  calls_of event (effects_of (run more s)) = [].
Proof.
  revert s. induction more as [|op more IH]; intros s Hwf Hnone Hno; [done|].
  rewrite no_publish_of_cons in Hno. apply andb_true_iff in Hno as [Hop Hmore].
  destruct (not_pending_step op event s Hwf Hnone Hop) as [Hcalls Hnone'].
  rewrite effects_run_cons, calls_of_app, Hcalls.
  apply IH; [by apply well_formed_step | done | done].
Qed.

(** X6. Past events are not replayed: when nothing is pending for a kind
    (as is the case whenever the gate is open), no later call invokes a
    subscriber of that kind until that kind is published again; a late
    subscriber sees only events published after it subscribed. *)
Theorem no_delivery_without_a_new_publish ops more event :
  JsMap.get event (waitForReadyQueue (exec ops)) = None →
  no_publish_of event more = true →
  calls_of event (effects_of (run more (exec ops))) = [].
Proof.
  intros Hnone Hno. apply not_pending_run; [apply well_formed_exec | done..].
Qed.

Lemma console_errors_app (l1 l2 : list (Effect Value)) :
  console_errors (l1 ++ l2) = console_errors l1 ++ console_errors l2.
Proof.
  induction l1 as [|[event sub payload|args] l1 IH]; simpl; by rewrite ?IH.
Qed.

(** X8. A delivery calls [console.error] once for each subscriber whose
    callback throws, in delivery order and naming the subscriber key (with
    the message and stack of an [Error], or the thrown value otherwise),
    and not at all for the subscribers that return. *)
Theorem one_error_report_per_failing_subscriber event payload s :
  console_errors (effects_of (publishEvent event payload s)) =
    omap (error_report payload) (allSubscribersFor event s)
  ∧ length (console_errors (effects_of (publishEvent event payload s))) =
      length (filter (fun entry => fails_on payload entry = true)
                (allSubscribersFor event s)).
Proof.
  rewrite publishEvent_eq. unfold effects_of; cbn [fst snd].
  generalize (allSubscribersFor event s). intros subs.
  assert (console_errors (deliveries event payload subs) =
          omap (error_report payload) subs) as Herr.
  { unfold deliveries. induction subs as [|[sub callback] subs IH]; [done|].
    cbn [flat_map]. rewrite console_errors_app, IH. csimpl.
    unfold deliver_to, error_report. simpl.
    by destruct (call callback payload) as [|[message stack|v]]. }
  split; [done|]. rewrite Herr. clear Herr.
  induction subs as [|[sub callback] subs IH]; [done|].
  change (omap (error_report payload) ((sub, callback) :: subs)) with
    (match error_report payload (sub, callback) with
     | Some args => args :: omap (error_report payload) subs
     | None => omap (error_report payload) subs
     end).
  unfold JsMap.t. unfold error_report at 1. cbn [fst snd].
  destruct (call callback payload) as [|error] eqn:Hcall.
  - rewrite filter_cons_False
      by (unfold fails_on; cbn [snd]; by rewrite Hcall).
    exact IH.
  - rewrite filter_cons_True
      by (unfold fails_on; cbn [snd]; by rewrite Hcall).
    destruct error as [message stack|v]; simpl; by rewrite IH.
Qed.

End WhatIsNotDelivered.

(** ** [shopifyCanTrack] and the consent checks *)

Section CanTrackFacts.

Context {Value : Type}.

(** X9. [shopifyCanTrack] answers [true] exactly when the customer
    privacy API is loaded, down to its [analyticsProcessingAllowed] method,
    and the call of that method returns [true]; when any part is missing or
    the call throws, the exception is swallowed and the answer is [false]. *)
Theorem shopifyCanTrack_true_iff (window : option (Window Value)) :
  shopifyCanTrack window = true ↔
  ∃ w shopify privacy,
    window = Some w ∧ Shopify w = Some shopify
    ∧ customerPrivacy shopify = Some privacy
    ∧ analyticsProcessingAllowed privacy = Some (Normal true).
Proof.
  unfold shopifyCanTrack, analyticsProcessingAllowed_call. split.
  - destruct window as [w|]; [|done]. simpl.
    destruct (Shopify w) as [shopify|] eqn:Hs; [|done]. simpl.
    destruct (customerPrivacy shopify) as [privacy|] eqn:Hp; [|done]. simpl.
    destruct (analyticsProcessingAllowed privacy) as [[allowed|error]|] eqn:Ha;
      simpl; try done.
    intros ->. by exists w, shopify, privacy.
  - intros (w & shopify & privacy & -> & Hs & Hp & Ha). simpl.
    rewrite Hs. simpl. rewrite Hp. simpl. by rewrite Ha.
Qed.

End CanTrackFacts.

Lemma ends_with_refl (s : string) : ends_with s s = true.
Proof. destruct s; cbn [ends_with]; by rewrite bool_decide_eq_true_2. Qed.

Lemma ends_with_app (prefix suffix : string) :
  ends_with suffix (prefix +:+ suffix) = true.
Proof.
  induction prefix as [|a prefix IH]; [apply ends_with_refl|].
  change (String a prefix +:+ suffix) with (String a (prefix +:+ suffix)).
  cbn [ends_with]. rewrite IH. by destruct (bool_decide _).
Qed.

Lemma ends_with_inv (suffix s : string) :
  ends_with suffix s = true → ∃ prefix, s = prefix +:+ suffix.
Proof.
  induction s as [|a s IH]; cbn [ends_with].
  - destruct (bool_decide (EmptyString = suffix)) eqn:Heq; [|done].
    apply bool_decide_eq_true in Heq as <-. intros _. by exists EmptyString.
  - destruct (bool_decide (String a s = suffix)) eqn:Heq.
    + apply bool_decide_eq_true in Heq as <-. intros _. by exists EmptyString.
    + intros [prefix ->]%IH. by exists (String a prefix).
Qed.

Lemma missing_default (field : option string) (default : string) :
  default ≠ EmptyString →
  missing (if missing field then Some default else field) = false.
Proof.
  intros Hne. destruct (missing field) eqn:Hm; [|done].
  simpl. by apply bool_decide_eq_false.
Qed.

(** X10. The consent checks are idempotent: running them again on the
    consent they produced (as every re-render does) changes nothing further
    and raises the same diagnostics. *)
Theorem checkConsent_idempotent (shopId : option string) (consent : Consent) :
  checkConsent shopId (checkConsent shopId consent).1 =
  checkConsent shopId consent.
Proof.
  unfold checkConsent. destruct shopId as [shopId|]; [|done].
  destruct (is_mock_shop shopId) eqn:Hmock; [done|].
  cbn [fst checkoutDomain storefrontAccessToken withPrivacyBanner
    country language].
  rewrite !missing_default by done. f_equal. f_equal.
  by destruct (withPrivacyBanner consent).
Qed.

(** X11. For a shop that is not the mock shop, the checks leave [country]
    and [language] non-empty and [withPrivacyBanner] defined, keep every
    value the caller gave, fill in [US], [EN] and [false] otherwise, never
    touch [checkoutDomain] and [storefrontAccessToken], and raise no
    diagnostic exactly when both of these are given. *)
Theorem checkConsent_defaults (shopId : string) (consent : Consent) :
  is_mock_shop shopId = false →
  let checked := (checkConsent (Some shopId) consent).1 in
  missing (country checked) = false
  ∧ missing (language checked) = false
  ∧ country checked =
      (if missing (country consent) then Some "US"%string else country consent)
  ∧ language checked =
      (if missing (language consent) then Some "EN"%string else language consent)
  ∧ withPrivacyBanner checked =
      Some (default false (withPrivacyBanner consent))
  ∧ checkoutDomain checked = checkoutDomain consent
  ∧ storefrontAccessToken checked = storefrontAccessToken consent
  ∧ ((checkConsent (Some shopId) consent).2 = [] ↔
     missing (checkoutDomain consent) = false
     ∧ missing (storefrontAccessToken consent) = false).
Proof.
  intros Hmock. unfold checkConsent. rewrite Hmock. cbv zeta. cbn [fst snd].
  cbn [checkoutDomain storefrontAccessToken withPrivacyBanner country language].
  split_and!; try done.
  - by apply missing_default.
  - by apply missing_default.
  - by destruct (withPrivacyBanner consent).
  - destruct (missing (checkoutDomain consent)),
      (missing (storefrontAccessToken consent)); simpl; split; try done;
      by intros [? ?].
Qed.

(** X12. While the shop is not resolved, and for the mock shop (an id
    ending in [/68817551382]), the consent is left as the caller gave it and
    no error is raised, whatever is missing from it. *)
Theorem checkConsent_skipped (prefix : string) (consent : Consent) :
  checkConsent None consent = (consent, [])
  ∧ checkConsent (Some (prefix +:+ "/68817551382")%string) consent =
      (consent, [WarnOnce mock_shop_warning]).
Proof.
  split; [done|]. unfold checkConsent, is_mock_shop.
  by rewrite ends_with_app.
Qed.

(** ** Publishing and readying at an arbitrary moment *)

Section AnyMoment.

Context {Value : Type}.
Implicit Types (s : Bus Value) (op : Op (Value := Value))
  (ops more : list (Op (Value := Value))) (event key : string)
  (payload : Value).

(** X13. Whenever the gate is open, [publish] invokes each current
    subscriber of the kind exactly once, at once, and leaves the stores as
    they were: nothing is queued. *)
Theorem publish_while_open ops event payload :
  gate_open (exec ops) = true →
  publish event payload (exec ops) =
    (exec ops,
     deliveries event payload (allSubscribersFor event (exec ops)),
     Normal tt)
  ∧ calls_of event (effects_of (publish event payload (exec ops))) =
      (fun sub => (sub, payload)) <$>
        JsMap.keys (allSubscribersFor event (exec ops))
  ∧ NoDup (JsMap.keys (allSubscribersFor event (exec ops)))
  ∧ waitForReadyQueue (exec (ops ++ [OpPublish event payload])) = [].
Proof.
  intros Hopen. rewrite exec_snoc. cbn [step]. rewrite publish_eq, Hopen.
  split_and!; [done | apply calls_of_deliveries | |].
  - apply allSubscribersFor_NoDup, well_formed_exec.
  - unfold state_of; cbn [fst].
    destruct (well_formed_exec ops) as (_ & _ & _ & Hempty). by apply Hempty.
Qed.

(** X14. The [ready] call of the last participant that was not ready
    opens the gate by itself: it flushes everything pending, in queue
    order, and leaves the queue empty. *)
Theorem last_ready_opens_and_flushes ops key :
  (∀ other, other ∈ registered ops → other ≠ key → other ∈ readied ops) →
  gate_open (exec (ops ++ [OpReady key])) = true
  ∧ effects_of (ready key (exec ops)) =
      flush_effects (exec ops) (waitForReadyQueue (exec ops))
  ∧ waitForReadyQueue (exec (ops ++ [OpReady key])) = [].
Proof.
  intros Hothers.
  assert (gate_open (exec (ops ++ [OpReady key])) = true) as Hopen.
  { apply areRegistersReady_in_spec. intros other [] Hflag; [done|].
    apply flag_false_origin in Hflag as [Hreg Hnot].
    rewrite registered_app in Hreg. simpl in Hreg. rewrite app_nil_r in Hreg.
    rewrite readied_app in Hnot. simpl in Hnot.
    rewrite elem_of_app, list_elem_of_singleton in Hnot.
    exfalso. destruct (decide (other = key)) as [->|Hne]; [tauto|].
    apply Hnot. left. by apply Hothers. }
  split; [done|]. rewrite exec_snoc in Hopen |- *. cbn [step] in Hopen |- *.
  by rewrite (ready_opening _ _ Hopen).
Qed.

(** X15. Registering a name that has no flag yet, other than
    [__proto__] and while no flag is stored under [hasOwnProperty], closes
    the gate at once, whatever the state: a [publish] that follows delivers
    nothing and is pending afterwards. *)
Theorem new_participant_defers_events ops key event payload :
  registers (exec ops) !! key = None → key ≠ "__proto__"%string →
  registers (exec ops) !! "hasOwnProperty"%string = None →
  gate_open (exec (ops ++ [OpRegister key])) = false
  ∧ effects_of (run [OpRegister key; OpPublish event payload] (exec ops)) = []
  ∧ JsMap.get event
      (waitForReadyQueue
         (exec (ops ++ [OpRegister key; OpPublish event payload])))
    = Some payload.
Proof.
  intros Hnew Hnp Hh.
  assert (gate_open (exec (ops ++ [OpRegister key])) = false) as Hclosed.
  { rewrite exec_snoc. by apply new_register_closes_gate. }
  assert (closed_throughout [OpRegister key; OpPublish event payload] (exec ops)
          = true) as Hall.
  { cbn [closed_throughout]. rewrite <- exec_snoc. cbn [step].
    by rewrite gate_open_publish, Hclosed. }
  destruct (closed_run _ _ Hall) as [Heffects Hqueue].
  split_and!; [done | done |].
  rewrite exec_app, Hqueue. simpl. apply get_set_eq.
Qed.

End AnyMoment.


(** ** The theorems at concrete runs *)

Local Open Scope string_scope.

Example pixels_scenario :
  invocations (effects_of (run
    (two_pixels ++ OpPublish "cart_updated" 1 :: subscribe_then_first_ready)
    init)) = []
  ∧ invocations (effects_of (ready "pixelB" (exec
      (two_pixels ++ OpPublish "cart_updated" 1 :: subscribe_then_first_ready))))
    = [("cart_updated", "cb", 1)].
Proof. split; reflexivity. Qed.

Example late_subscriber_scenario :
  invocations (effects_of (run
    [OpRegister "x"; OpReady "x"; OpPublish "page_viewed" 5;
     OpSubscribe "page_viewed" (quiet "cb")] init)) = [].
Proof. reflexivity. Qed.

Lemma deferred_publish_delivered_once_witness :
  gate_open (exec two_pixels) = false
  ∧ closed_throughout subscribe_then_first_ready
      (exec (two_pixels ++ [OpPublish "cart_updated" 1])) = true
  ∧ calls_of "cart_updated"
      (effects_of (ready "pixelB" (exec
         (two_pixels ++ OpPublish "cart_updated" 1 :: subscribe_then_first_ready))))
    = [("cb", 1)].
Proof.
  split_and!; [reflexivity | reflexivity |].
  apply (deferred_publish_delivered_once two_pixels subscribe_then_first_ready
           "cart_updated" 1 "pixelB"); reflexivity.
Defined.

Lemma second_publish_wins_witness :
  gate_open (exec two_pixels) = false
  ∧ calls_of "cart_updated"
      (effects_of (run
         ((OpPublish "cart_updated" 1 :: [OpSubscribe "cart_updated" (quiet "cb")]
           ++ OpPublish "cart_updated" 2 :: [OpReady "pixelA"])
          ++ [OpReady "pixelB"]) (exec two_pixels)))
    = [("cb", 2)].
Proof.
  split; [reflexivity|].
  apply (second_publish_wins two_pixels
           [OpSubscribe "cart_updated" (quiet "cb")] [OpReady "pixelA"]
           "cart_updated" 1 2 "pixelB"); reflexivity.
Defined.

Lemma throwing_callback_is_isolated_witness :
  call (failing "bad") 1 = Throws (ThrownError "boom" "at failing")
  ∧ effects_of (publishEvent "cart_updated" 1 (exec failing_first)) =
      [Invoke "cart_updated" "bad" 1;
       ConsoleError [LStr "Analytics publish error"; LStr "boom"; LStr "bad";
                     LStr "at failing"];
       Invoke "cart_updated" "good" 1]
  ∧ calls_of "cart_updated"
      (effects_of (publishEvent "cart_updated" 1 (exec failing_first)))
    = [("bad", 1); ("good", 1)]
  ∧ calls_of "page_viewed" (effects_of (ready "pixelA" (exec failing_first)))
    = [("pages", 2)].
Proof.
  pose proof (throwing_callback_is_isolated failing_first "cart_updated" 1
                "bad" (failing "bad") (ThrownError "boom" "at failing")
                [] [("good", quiet "good")] eq_refl eq_refl)
    as (_ & Hcalls & _ & _ & Hready).
  split_and!; [reflexivity | reflexivity | exact Hcalls |].
  exact (proj2 (Hready "pixelA") "page_viewed" 2 eq_refl eq_refl).
Defined.

Lemma publish_before_any_register_witness :
  registered [OpSubscribe "page_viewed" (quiet "cb")] = []
  ∧ publish "page_viewed" 7 (exec [OpSubscribe "page_viewed" (quiet "cb")]) =
      (exec [OpSubscribe "page_viewed" (quiet "cb")],
       [Invoke "page_viewed" "cb" 7], Normal tt).
Proof.
  split; [reflexivity|].
  apply (publish_before_any_register [OpSubscribe "page_viewed" (quiet "cb")]
           "page_viewed" 7); reflexivity.
Defined.

Lemma subscribe_same_callback_once_witness :
  toString (quiet "cb") = toString (picky "cb")
  ∧ exec (take 4 late_participant
          ++ [OpSubscribe "cart_updated" (quiet "cb");
              OpSubscribe "cart_updated" (picky "cb")]) =
    exec (take 4 late_participant ++ [OpSubscribe "cart_updated" (picky "cb")])
  ∧ calls_of "cart_updated" (effects_of (publish "cart_updated" 1
      (exec ((take 4 late_participant
              ++ [OpSubscribe "cart_updated" (quiet "cb");
                  OpSubscribe "cart_updated" (picky "cb")]) ++ []))))
    = [("cb", 1)]
  ∧ length (filter (fun c : string * nat => c.1 = toString (quiet "cb"))
      (calls_of "cart_updated" (effects_of (run
         ((OpPublish "cart_updated" 1 :: []) ++ [OpReady "pixelB"])
         (exec ((take 4 late_participant
                 ++ [OpSubscribe "cart_updated" (quiet "cb");
                     OpSubscribe "cart_updated" (picky "cb")])
                ++ [OpRegister "pixelB"]))))))
    = 1.
Proof.
  pose proof (subscribe_same_callback_once (take 4 late_participant) []
                "cart_updated" (quiet "cb") (picky "cb") 1 eq_refl)
    as (Hsame & _ & _ & _).
  pose proof (subscribe_same_callback_once (take 4 late_participant)
                [OpRegister "pixelB"] "cart_updated" (quiet "cb") (picky "cb")
                1 eq_refl)
    as (_ & _ & _ & Hclosed).
  split_and!; [reflexivity | exact Hsame | reflexivity |].
  apply (Hclosed [] "pixelB"); reflexivity.
Defined.

Lemma flush_in_first_enqueue_order_witness :
  closed_throughout interleaved_publishes (exec []) = true
  ∧ waitForReadyQueue (exec ([] ++ interleaved_publishes)) =
      [("cart_updated", 3); ("page_viewed", 2)]
  ∧ drainInOrder (published interleaved_publishes) =
      [("cart_updated", 3); ("page_viewed", 2)].
Proof.
  split_and!; [reflexivity | | reflexivity].
  apply (flush_in_first_enqueue_order [] interleaved_publishes "pixelA");
    reflexivity.
Defined.

Lemma register_and_ready_idempotent_witness :
  register "pixelA" (exec ready_pixel) = (exec ready_pixel, [], Normal tt)
  ∧ ready "pixelA" (exec ready_pixel) = (exec ready_pixel, [], Normal tt)
  ∧ registers (exec (ready_pixel ++ [OpRegister "pixelB"]
                     ++ [OpRegister "pixelA"])) !! "pixelA" = Some true.
Proof.
  pose proof (register_and_ready_idempotent ready_pixel "pixelA")
    as (Hregister & Hready & Hmonotone).
  split_and!.
  - apply Hregister; [apply list_elem_of_here | reflexivity].
  - apply Hready. apply list_elem_of_here.
  - apply (Hmonotone eq_refl [OpRegister "pixelB"]).
Defined.

Lemma open_gate_has_empty_queue_witness :
  gate_open (exec (take 4 late_participant)) = true
  ∧ waitForReadyQueue (exec (take 4 late_participant)) = [].
Proof.
  split; [reflexivity|].
  apply (open_gate_has_empty_queue (take 4 late_participant)); reflexivity.
Defined.

Lemma gate_transitions_witness :
  (∃ key, OpRegister "pixelB" = OpRegister (Value := nat) key
     ∧ registers (exec (take 4 late_participant)) !! key = None
     ∧ (key ∉ registered (take 4 late_participant))
     ∧ (key ∉ readied (take 4 late_participant)))
  ∧ gate_open (exec (take 4 late_participant ++ [OpRegister "pixelB"])) = false
  ∧ (∃ key, OpReady "pixelA" = OpReady (Value := nat) key
       ∧ effects_of (step (OpReady "pixelA") (exec (take 3 late_participant))) =
           flush_effects (exec (take 3 late_participant))
             (waitForReadyQueue (exec (take 3 late_participant)))
       ∧ NoDup (JsMap.keys (waitForReadyQueue (exec (take 3 late_participant))))
       ∧ waitForReadyQueue
           (exec (take 3 late_participant ++ [OpReady "pixelA"])) = []).
Proof.
  split_and!.
  - apply (gate_transitions (take 4 late_participant) (OpRegister "pixelB"));
      reflexivity.
  - apply (gate_transitions (take 4 late_participant) (OpRegister "pixelB")
             : _ ∧ _ ∧ _) with "pixelB"; [reflexivity | reflexivity | | reflexivity].
    apply (bool_decide_unpack _). vm_compute. exact I.
  - apply (gate_transitions (take 3 late_participant) (OpReady "pixelA"));
      reflexivity.
Defined.

(** C5 as stated fails: in the run [late_participant] the gate is open
    after the fourth call, closed again after the fifth, and it opens
    twice, each time with a flush. *)
Lemma gate_closes_and_opens_again :
  gate_open (exec (take 4 late_participant)) = true
  ∧ gate_open (exec (take 5 late_participant)) = false
  ∧ openings late_participant init = 2
  ∧ closings late_participant init = 2
  ∧ invocations (effects_of (run late_participant init)) =
      [("cart_updated", "cb", 1); ("cart_updated", "cb", 2)].
Proof. split_and!; reflexivity. Qed.

Lemma nothing_is_removed_witness :
  "good" ∈ JsMap.keys (allSubscribersFor "cart_updated"
             (exec (failing_first ++ [OpReady "pixelA"])))
  ∧ is_Some (registers (exec (failing_first ++ [OpReady "pixelA"])) !! "pixelA").
Proof.
  pose proof (nothing_is_removed failing_first [OpReady "pixelA"]
                "cart_updated" "good" "pixelA") as [Hsub Hreg].
  split.
  - apply Hsub. apply (bool_decide_unpack _). vm_compute. exact I.
  - apply Hreg. exists false. reflexivity.
Defined.

Lemma every_invocation_was_published_and_subscribed_witness :
  ("cart_updated", 1) ∈ published late_participant
  ∧ ∃ callback,
      OpSubscribe "cart_updated" callback ∈ late_participant
      ∧ toString callback = "cb".
Proof.
  apply (every_invocation_was_published_and_subscribed late_participant
           "cart_updated" "cb" 1).
  apply (bool_decide_unpack _). vm_compute. exact I.
Defined.

Lemma pending_is_latest_publish_witness :
  JsMap.get "cart_updated" (waitForReadyQueue (exec interleaved_publishes))
    = Some 3
  ∧ latest_payload "cart_updated" (published interleaved_publishes) = Some 3.
Proof.
  split; [reflexivity|].
  apply (pending_is_latest_publish interleaved_publishes "cart_updated" 3).
  reflexivity.
Defined.

Lemma nothing_delivered_while_a_participant_is_unready_witness :
  registers (exec two_pixels) !! "pixelB" = Some false
  ∧ effects_of (run (OpPublish "cart_updated" 1 :: subscribe_then_first_ready)
                  (exec two_pixels)) = [].
Proof.
  split; [reflexivity|].
  apply (nothing_delivered_while_a_participant_is_unready two_pixels
           (OpPublish "cart_updated" 1 :: subscribe_then_first_ready) "pixelB").
  - reflexivity.
  - apply (bool_decide_unpack _). vm_compute. exact I.
Defined.

Lemma no_delivery_without_a_new_publish_witness :
  JsMap.get "cart_updated" (waitForReadyQueue (exec (take 4 late_participant)))
    = None
  ∧ calls_of "cart_updated"
      (effects_of (run after_opening (exec (take 4 late_participant)))) = [].
Proof.
  split; [reflexivity|].
  apply (no_delivery_without_a_new_publish (take 4 late_participant)
           after_opening "cart_updated"); reflexivity.
Defined.

Lemma checkConsent_defaults_witness :
  is_mock_shop "gid://shopify/Shop/1" = false
  ∧ country (checkConsent (Some "gid://shopify/Shop/1") domain_only).1
    = Some "US"
  ∧ language (checkConsent (Some "gid://shopify/Shop/1") domain_only).1
    = Some "EN"
  ∧ withPrivacyBanner (checkConsent (Some "gid://shopify/Shop/1") domain_only).1
    = Some false.
Proof.
  pose proof (checkConsent_defaults "gid://shopify/Shop/1" domain_only eq_refl)
    as (_ & _ & Hcountry & Hlanguage & Hbanner & _).
  split_and!; [reflexivity | exact Hcountry | exact Hlanguage | exact Hbanner].
Defined.

Lemma publish_while_open_witness :
  gate_open (exec (take 4 late_participant)) = true
  ∧ calls_of "cart_updated"
      (effects_of (publish "cart_updated" 9 (exec (take 4 late_participant))))
    = [("cb", 9)].
Proof.
  split; [reflexivity|].
  apply (publish_while_open (take 4 late_participant) "cart_updated" 9).
  reflexivity.
Defined.

Lemma last_ready_opens_and_flushes_witness :
  gate_open
    (exec ((two_pixels ++ OpPublish "cart_updated" 1 :: subscribe_then_first_ready)
           ++ [OpReady "pixelB"])) = true
  ∧ effects_of (ready "pixelB"
      (exec (two_pixels ++ OpPublish "cart_updated" 1 :: subscribe_then_first_ready)))
    = [Invoke "cart_updated" "cb" 1].
Proof.
  pose proof (last_ready_opens_and_flushes
                (two_pixels ++ OpPublish "cart_updated" 1
                 :: subscribe_then_first_ready) "pixelB") as H.
  assert (∀ other,
            other ∈ registered (two_pixels ++ OpPublish "cart_updated" 1
                                :: subscribe_then_first_ready) →
            other ≠ "pixelB" →
            other ∈ readied (two_pixels ++ OpPublish "cart_updated" 1
                             :: subscribe_then_first_ready)) as Hothers.
  { apply (proj1 (Forall_forall
      (fun other => other ≠ "pixelB" →
         other ∈ readied (two_pixels ++ OpPublish "cart_updated" 1
                          :: subscribe_then_first_ready))
      (registered (two_pixels ++ OpPublish "cart_updated" 1
                   :: subscribe_then_first_ready)))).
    apply (bool_decide_unpack _). vm_compute. exact I. }
  destruct (H Hothers) as (Hopen & Heffects & _).
  split; [exact Hopen | exact Heffects].
Defined.

Lemma new_participant_defers_events_witness :
  registers (exec (take 4 late_participant)) !! "pixelB" = None
  ∧ gate_open (exec (take 4 late_participant ++ [OpRegister "pixelB"])) = false
  ∧ JsMap.get "cart_updated"
      (waitForReadyQueue
         (exec (take 4 late_participant
                ++ [OpRegister "pixelB"; OpPublish "cart_updated" 2])))
    = Some 2.
Proof.
  pose proof (new_participant_defers_events (take 4 late_participant)
                "pixelB" "cart_updated" 2) as H.
  assert ("pixelB" ≠ "__proto__") as Hnp.
  { apply (bool_decide_unpack _). vm_compute. exact I. }
  destruct (H eq_refl Hnp eq_refl) as (Hclosed & _ & Hpending).
  split_and!; [reflexivity | exact Hclosed | exact Hpending].
Defined.


(** C1 fails on the code at the participant name [__proto__]: the run
    [proto_participant] registers it and never calls its [ready], yet
    nothing is stored for it, the gate is open after the [register] call,
    and the [publish] that follows is delivered at once.  In general,
    [register("__proto__")] leaves [registers] as it was. *)
Theorem gate_open_with_unready_proto_participant :
  ("__proto__" ∈ registered proto_participant)
  ∧ ("__proto__" ∉ readied proto_participant)
  ∧ registers (exec (take 2 proto_participant)) = ∅
  ∧ gate_open (exec (take 2 proto_participant)) = true
  ∧ invocations (effects_of (run proto_participant init)) =
      [("cart_updated", "cb", 1)]
  ∧ ∀ ops : list (Op (Value := nat)),
      registers (exec (ops ++ [OpRegister "__proto__"])) = registers (exec ops).
Proof.
  split_and!; try reflexivity.
  - apply (bool_decide_unpack _). vm_compute. exact I.
  - apply (bool_decide_unpack _). vm_compute. exact I.
  - apply register_proto_stores_nothing.
Qed.

(** Once a participant named [hasOwnProperty] is stored, every later
    [register] call throws and stores nothing. *)
Example register_throws_after_hasOwnProperty :
  register "pixelA" (exec hasOwnProperty_participant) =
  (exec hasOwnProperty_participant, [],
   Abrupt (ThrownError "TypeError: registers.hasOwnProperty is not a function"
             EmptyString))
  ∧ exec (hasOwnProperty_participant ++ [OpRegister "pixelA"]) =
    exec hasOwnProperty_participant.
Proof. split; reflexivity. Qed.

(** C7 as stated fails: [quiet "cb"] and [failing "cb"] have the same
    source text, yet subscribing the second after the first is not a
    no-op.  A publish then invokes the second, which throws and is logged;
    after the first subscription alone nothing is logged. *)
Lemma same_text_subscription_replaces_callback :
  toString (quiet "cb") = toString (failing "cb")
  ∧ effects_of (publish "cart_updated" 1 (exec (take 1 same_text_twice))) =
      [Invoke "cart_updated" "cb" 1]
  ∧ effects_of (publish "cart_updated" 1 (exec same_text_twice)) =
      [Invoke "cart_updated" "cb" 1;
       ConsoleError [LStr "Analytics publish error"; LStr "boom"; LStr "cb";
                     LStr "at failing"]]
  ∧ exec same_text_twice ≠ exec (take 1 same_text_twice).
Proof.
  split_and!; try reflexivity.
  intros Heq.
  assert (effects_of (publish "cart_updated" 1 (exec same_text_twice)) =
          effects_of (publish "cart_updated" 1 (exec (take 1 same_text_twice))))
    as Heffects by (by rewrite Heq).
  vm_compute in Heffects. discriminate Heffects.
Qed.

Lemma gate_open_iff_all_ready_for_ordinary_names_witness :
  ordinary_names ready_pixel = true
  ∧ ∀ key, key ∈ registered ready_pixel → key ∈ readied ready_pixel.
Proof.
  split; [reflexivity|].
  apply (gate_open_iff_all_ready_for_ordinary_names ready_pixel); reflexivity.
Defined.
